(** * Real-Time-Chat-App: the Socket.IO session core of the server

    A shallow embedding of the server's connection handlers
    ([io.on('connection')] with its [join_room], [send_message],
    [typing] and [disconnect] listeners, and the [POST /api/rooms] route) together
    with the part of the Socket.IO server API they call
    ([socket.join], [socket.leave], [socket.rooms], [socket.emit],
    [socket.to(room).emit], [io.to(room).emit]).

    The three global maps of the server ([rooms], [userSockets],
    [socketUsers]) and the adapter of the transport library are the
    fields of one [State]; every handler is a function from a state to a
    new state and the list of events it emits, in emission order. *)

From stdpp Require Import gmap strings list fin_maps.
From Stdlib Require Import NArith ZArith Lia.

Set Warnings "-register-all,-clear-no-such-hyp".

Local Open Scope N_scope.
Local Open Scope nat_scope.

(** ** JavaScript strings

    A JavaScript string is a sequence of UTF-16 code units. *)

Abbreviation str := (list N).

Definition js (s : string) : str :=
  Ascii.N_of_ascii <$> String.list_ascii_of_string s.

Module JsString.

(** ECMAScript [WhiteSpace] and [LineTerminator] code points, the ones
    [String.prototype.trim] strips: TAB, LF, VT, FF, CR, SP, NBSP,
    U+1680, U+2000..U+200A, LS, PS, U+202F, U+205F, U+3000, U+FEFF. *)
Definition is_white_space (c : N) : bool :=
  ((9 <=? c) && (c <=? 13))%N
  || (c =? 32)%N || (c =? 160)%N || (c =? 5760)%N
  || ((8192 <=? c) && (c <=? 8202))%N
  || (c =? 8232)%N || (c =? 8233)%N || (c =? 8239)%N
  || (c =? 8287)%N || (c =? 12288)%N || (c =? 65279)%N.

Fixpoint trimStart (s : str) : str :=
  match s with
  | c :: s' => if is_white_space c then trimStart s' else s
  | [] => []
  end.

Definition trimEnd (s : str) : str := reverse (trimStart (reverse s)).

(** [String.prototype.trim] *)
Definition trim (s : str) : str := trimEnd (trimStart s).

Definition all_white_space (s : str) : Prop := Forall (λ c, is_white_space c = true) s.

End JsString.

(** ** Values received from a client

    The argument of an event is whatever JSON value the client sent. *)

Inductive JsVal :=
| JUndefined
| JNull
| JBool (b : bool)
| JNum (z : Z)
| JStr (s : str)
| JArr (items : list JsVal)
| JObj (fields : list (str * JsVal)).

(** [obj[key]] on a parsed JSON object: [undefined] when the key is absent. *)
Fixpoint field (key : str) (fields : list (str * JsVal)) : JsVal :=
  match fields with
  | [] => JUndefined
  | (k, v) :: rest => if bool_decide (k = key) then v else field key rest
  end.

(** [data.key] for a value that is neither [undefined] nor [null]. *)
Definition prop (key : str) (data : JsVal) : JsVal :=
  match data with
  | JObj fields => field key fields
  | _ => JUndefined
  end.

(** [const { roomId, message } = data;]  Destructuring [undefined] or
    [null] is a TypeError ([None]); a primitive or an array has neither
    property. *)
Definition destructure (data : JsVal) : option (JsVal * JsVal) :=
  match data with
  | JUndefined | JNull => None
  | JObj fields => Some (field (js "roomId") fields, field (js "message") fields)
  | JBool _ | JNum _ | JStr _ | JArr _ => Some (JUndefined, JUndefined)
  end.

(** [message.trim()]: a TypeError ([None]) unless [message] is a string
    (reading a property of [undefined] or [null] throws, and no other
    JSON value has a callable [trim]). *)
Definition call_trim (message : JsVal) : option str :=
  match message with
  | JStr s => Some (JsString.trim s)
  | _ => None
  end.

(** ** Data model *)

(** [socket.user], the object decoded from the token by [socketAuth].
    Every connection gets an object of its own; [u_ref] is the identity
    of that object, which is what a JavaScript [Set] compares. *)
Record User := mkUser {
  u_ref : nat;
  u_id : str;
  u_name : str;
  u_email : str;
  u_picture : str
}.

(** [messageObj] *)
Record Message := mkMessage {
  m_id : str;
  m_user : User;
  m_message : str;
  m_timestamp : str
}.

(** A value of the [rooms] map: [{ name, messages: [], users: Set }]. *)
Record Room := mkRoom {
  r_name : str;
  r_messages : list Message;
  r_users : list User
}.

(** A connected socket as the transport library keeps it: the user
    attached by the authentication middleware and [socket.rooms]. *)
Record Sock := mkSock {
  s_user : User;
  s_rooms : list str
}.

Record State := mkState {
  rooms : gmap str Room;          (* roomId -> { name, messages, users } *)
  userSockets : gmap str str;     (* userId -> socketId *)
  socketUsers : gmap str User;    (* socketId -> user *)
  sockets : gmap str Sock;        (* the connected sockets of the server *)
  next_ref : nat                  (* identity of the next allocated object *)
}.

Inductive Event :=
| EvError (detail : str)
| EvUserLeft (user : User) (users : list User)
| EvUserJoined (user : User) (users : list User)
| EvRoomUsers (roomId : str) (users : list User)
| EvMessageHistory (roomId : str) (messages : list Message)
| EvMessage (m : Message)
| EvUserTyping (user : User) (isTyping : JsVal).

(** One emitted packet: the socket it is sent to and the event. *)
Abbreviation Emit := (str * Event)%type.

Definition set_rooms (rs : gmap str Room) (σ : State) : State :=
  mkState rs (userSockets σ) (socketUsers σ) (sockets σ) (next_ref σ).

Definition set_sockets (ss : gmap str Sock) (σ : State) : State :=
  mkState (rooms σ) (userSockets σ) (socketUsers σ) ss (next_ref σ).

(** ** A JavaScript [Set] of objects

    Insertion ordered, elements compared by identity. *)
Module JsSet.

Definition has (u : User) (l : list User) : bool :=
  bool_decide (u_ref u ∈ u_ref <$> l).

Definition add (u : User) (l : list User) : list User :=
  if has u l then l else l ++ [u].

Definition delete (u : User) (l : list User) : list User :=
  filter (λ v, u_ref v ≠ u_ref u) l.

End JsSet.

(** ** The Socket.IO server API used by the handlers *)
Module SocketIO.

(** [socket.rooms]: the rooms the socket is in; empty for a socket
    that is not (or no longer) connected. *)
Definition socket_rooms (sid : str) (σ : State) : list str :=
  default [] (s_rooms <$> sockets σ !! sid).

(** [socket.join(room)] *)
Definition join (sid room : str) (σ : State) : State :=
  set_sockets
    (alter (λ sk, mkSock (s_user sk)
                    (if bool_decide (room ∈ s_rooms sk) then s_rooms sk
                     else s_rooms sk ++ [room])) sid (sockets σ)) σ.

(** [socket.leave(room)] *)
Definition leave (sid room : str) (σ : State) : State :=
  set_sockets
    (alter (λ sk, mkSock (s_user sk) (filter (λ r, r ≠ room) (s_rooms sk)))
       sid (sockets σ)) σ.

(** The ids of the sockets currently in [room]. *)
Definition in_room (room : str) (σ : State) : list str :=
  (filter (λ p : str * Sock, room ∈ s_rooms p.2) (map_to_list (sockets σ))).*1.

(** [socket.emit(ev)] *)
Definition emit (sid : str) (ev : Event) : list Emit := [(sid, ev)].

(** [io.to(room).emit(ev)]: every socket in the room. *)
Definition io_to_emit (room : str) (ev : Event) (σ : State) : list Emit :=
  (λ c, (c, ev)) <$> in_room room σ.

(** [socket.to(room).emit(ev)]: every socket in the room but the sender. *)
Definition to_emit (sid room : str) (ev : Event) (σ : State) : list Emit :=
  (λ c, (c, ev)) <$> filter (λ c, c ≠ sid) (in_room room σ).

(** How the library closes a socket: it fires ['disconnecting'], makes
    the socket leave all its rooms and removes it from the server, and
    only then fires ['disconnect'].  Its documentation of rooms says so:
    in a ['disconnecting'] listener [socket.rooms] still holds at least
    the socket id, in a ['disconnect'] listener [socket.rooms.size === 0].
    [cleanup] is the step between the two events. *)
Definition cleanup (sid : str) (σ : State) : State :=
  set_sockets (delete sid (sockets σ)) σ.

End SocketIO.


(** ** The handlers *)

(** The result of running a listener: it returns, leaving a new state
    and the packets it emitted, or an uncaught TypeError escapes it. *)
Inductive Outcome :=
| Throws
| Returns (σ : State) (out : list Emit).

(** [rooms.get(roomId)]: the keys of the map are strings, so any other
    value finds nothing. *)
Definition rooms_get (roomId : JsVal) (σ : State) : option (str * Room) :=
  match roomId with
  | JStr rid => (λ room, (rid, room)) <$> rooms σ !! rid
  | _ => None
  end.

(** [Array.from(room.users)] and [room.messages], read through the room
    object stored under [rid]. *)
Definition users_of (rid : str) (σ : State) : list User :=
  default [] (r_users <$> rooms σ !! rid).

Definition messages_of (rid : str) (σ : State) : list Message :=
  default [] (r_messages <$> rooms σ !! rid).

(** [io.on('connection', ...)]: the library has created the socket (in
    the room named by its own id), the authentication middleware has
    attached a freshly decoded user object, and the listener records the
    socket in [userSockets] and [socketUsers]. *)
Definition connection (sid uid name email picture : str) (σ : State) : State :=
  let user := mkUser (next_ref σ) uid name email picture in
  mkState (rooms σ)
          (<[uid := sid]> (userSockets σ))
          (<[sid := user]> (socketUsers σ))
          (<[sid := mkSock user [sid]]> (sockets σ))
          (S (next_ref σ)).

(** [app.post('/api/rooms', ...)] with the id the route generated. *)
Definition post_rooms (roomId name : str) (σ : State) : State :=
  if bool_decide (length (JsString.trim name) = 0) then σ
  else set_rooms (<[roomId := mkRoom (JsString.trim name) [] []]> (rooms σ)) σ.

(** The room object with [users] replaced: the effect of a mutation of
    its [Set]. *)
Definition with_users (users : list User) (room : Room) : Room :=
  mkRoom (r_name room) (r_messages room) users.

(** The body of the [forEach] of [join_room] ("Leave previous rooms"). *)
Definition leave_previous (sid : str) (user : User)
    (acc : State * list Emit) (room : str) : State * list Emit :=
  if bool_decide (room ≠ sid) then
    let σ1 := SocketIO.leave sid room acc.1 in
    match rooms σ1 !! room with
    | Some prevRoom =>
        let users := JsSet.delete user (r_users prevRoom) in
        let σ2 := set_rooms (<[room := with_users users prevRoom]> (rooms σ1)) σ1 in
        (σ2, acc.2 ++ SocketIO.to_emit sid room (EvUserLeft user users) σ2)
    | None => (σ1, acc.2)
    end
  else acc.

(** [room.users.add(socket.user)] on the room object stored under [rid]. *)
Definition add_user (user : User) (rid : str) (σ : State) : State :=
  set_rooms (alter (λ room, with_users (JsSet.add user (r_users room)) room)
               rid (rooms σ)) σ.

(** What [join_room] emits once the socket is in the room: the
    [user_joined] broadcast to the others, then [room_users] and
    [message_history] to the joining socket. *)
Definition join_events (sid : str) (user : User) (rid : str) (σ : State) : list Emit :=
  SocketIO.to_emit sid rid (EvUserJoined user (users_of rid σ)) σ
  ++ SocketIO.emit sid (EvRoomUsers rid (users_of rid σ))
  ++ SocketIO.emit sid (EvMessageHistory rid (messages_of rid σ)).

(** [socket.on('join_room', (roomId) => ...)] *)
Definition join_room (sid : str) (user : User) (roomId : JsVal) (σ : State)
    : State * list Emit :=
  match rooms_get roomId σ with
  | None => (σ, SocketIO.emit sid (EvError (js "Room not found")))
  | Some (rid, _) =>
      let left := foldl (leave_previous sid user) (σ, []) (SocketIO.socket_rooms sid σ) in
      let σ' := add_user user rid (SocketIO.join sid rid left.1) in
      (σ', left.2 ++ join_events sid user rid σ')
  end.

(** [array.slice(-n)]: the last [n] elements. *)
Definition slice_last {A} (n : nat) (l : list A) : list A :=
  drop (length l - n) l.

(** [room.messages.push(messageObj)] followed by the cut to the last
    100 messages. *)
Definition store_message (messageObj : Message) (messages : list Message) : list Message :=
  let pushed := messages ++ [messageObj] in
  if bool_decide (100 < length pushed) then slice_last 100 pushed else pushed.

(** [socket.on('send_message', (data) => ...)]; [now], [rnd] and [ts] are
    what [Date.now()], the random suffix and [toISOString()] produced. *)
Definition send_message (sid : str) (user : User) (data : JsVal)
    (now rnd ts : str) (σ : State) : Outcome :=
  match destructure data with
  | None => Throws
  | Some (roomId, message) =>
      match rooms_get roomId σ with
      | None => Returns σ (SocketIO.emit sid (EvError (js "Room not found")))
      | Some (rid, room) =>
          if negb (JsSet.has user (r_users room)) then
            Returns σ (SocketIO.emit sid (EvError (js "You are not in this room")))
          else
            match call_trim message with
            | None => Throws
            | Some body =>
                let messageObj :=
                  mkMessage (js "msg_" ++ now ++ js "_" ++ rnd) user body ts in
                let σ1 := set_rooms
                            (<[rid := mkRoom (r_name room)
                                        (store_message messageObj (r_messages room))
                                        (r_users room)]> (rooms σ)) σ in
                Returns σ1 (SocketIO.io_to_emit rid (EvMessage messageObj) σ1)
            end
      end
  end.

(** [socket.on('typing', (data) => ...)]: reading [data.roomId] of
    [undefined] or [null] throws; a [roomId] that is not a string names
    no room. *)
Definition typing (sid : str) (user : User) (data : JsVal) (σ : State) : Outcome :=
  match data with
  | JUndefined | JNull => Throws
  | _ =>
      Returns σ
        match prop (js "roomId") data with
        | JStr room =>
            SocketIO.to_emit sid room (EvUserTyping user (prop (js "isTyping") data)) σ
        | _ => []
        end
  end.

(** The body of the [forEach] of the [disconnect] listener ("Remove from
    all rooms"). *)
Definition remove_from_room (sid : str) (user : User)
    (acc : State * list Emit) (roomId : str) : State * list Emit :=
  if bool_decide (roomId ≠ sid) then
    match rooms acc.1 !! roomId with
    | Some room =>
        let users := JsSet.delete user (r_users room) in
        let σ1 := set_rooms (<[roomId := with_users users room]> (rooms acc.1)) acc.1 in
        (σ1, acc.2 ++ SocketIO.to_emit sid roomId (EvUserLeft user users) σ1)
    | None => acc
    end
  else acc.

(** [socket.on('disconnect', () => ...)] *)
Definition disconnect (sid : str) (user : User) (σ : State) : State * list Emit :=
  let removed := foldl (remove_from_room sid user) (σ, []) (SocketIO.socket_rooms sid σ) in
  (mkState (rooms removed.1)
           (delete (u_id user) (userSockets removed.1))
           (delete sid (socketUsers removed.1))
           (sockets removed.1)
           (next_ref removed.1),
   removed.2).

(** ** The server as a transition system *)

(** What can happen to the server.  [LeaveRoom] is the [leave_room]
    event of the README's event list. *)
Inductive Action :=
| Connect (sid uid name email picture : str)
| PostRooms (now rnd name : str)
| JoinRoom (sid : str) (roomId : JsVal)
| LeaveRoom (sid : str) (roomId : JsVal)
| SendMessage (sid : str) (data : JsVal) (now rnd ts : str)
| Typing (sid : str) (data : JsVal)
| Disconnect (sid : str).

Definition room_id (now rnd : str) : str := js "room_" ++ now ++ js "_" ++ rnd.

(** One step of the server; [None] when the action cannot occur in the
    state: an event needs a connected socket, and the ids drawn for a
    new socket or a new room are fresh.

    The server registers no listener for [leave_room], so the library
    drops the packet.  The server listens to ['disconnect'], not to
    ['disconnecting']: a closing socket is cleaned up by the library
    before the listener runs. *)
Definition handle (a : Action) (σ : State) : option Outcome :=
  match a with
  | Connect sid uid name email picture =>
      if bool_decide (sockets σ !! sid = None ∧ rooms σ !! sid = None)
      then Some (Returns (connection sid uid name email picture σ) [])
      else None
  | PostRooms now rnd name =>
      if bool_decide (rooms σ !! room_id now rnd = None ∧ sockets σ !! room_id now rnd = None)
      then Some (Returns (post_rooms (room_id now rnd) name σ) [])
      else None
  | JoinRoom sid roomId =>
      sk ← sockets σ !! sid;
      let r := join_room sid (s_user sk) roomId σ in Some (Returns r.1 r.2)
  | LeaveRoom sid roomId =>
      sk ← sockets σ !! sid; Some (Returns σ [])
  | SendMessage sid data now rnd ts =>
      sk ← sockets σ !! sid; Some (send_message sid (s_user sk) data now rnd ts σ)
  | Typing sid data =>
      sk ← sockets σ !! sid; Some (typing sid (s_user sk) data σ)
  | Disconnect sid =>
      sk ← sockets σ !! sid;
      let r := disconnect sid (s_user sk) (SocketIO.cleanup sid σ) in Some (Returns r.1 r.2)
  end.

(** The server at start-up: three empty maps and no socket. *)
Definition init : State := mkState ∅ ∅ ∅ ∅ 0.

(** Running a sequence of actions: the final state and everything
    emitted, in order.  [None] when an action cannot occur or a listener
    throws. *)
Fixpoint run (acts : list Action) (σ : State) : option (State * list Emit) :=
  match acts with
  | [] => Some (σ, [])
  | a :: rest =>
      match handle a σ with
      | Some (Returns σ' out) =>
          match run rest σ' with
          | Some (σ'', out') => Some (σ'', out ++ out')
          | None => None
          end
      | _ => None
      end
  end.

(** The states the server can be in. *)
Inductive reachable : State → Prop :=
| reachable_init : reachable init
| reachable_step a σ σ' out :
    reachable σ → handle a σ = Some (Returns σ' out) → reachable σ'.

(** What one socket receives, in order. *)
Definition received (sid : str) (out : list Emit) : list Event :=
  (filter (λ e : Emit, e.1 = sid) out).*2.

(** The application-level membership: the socket's user object is in
    [room.users]. *)
Definition is_member (user : User) (rid : str) (σ : State) : bool :=
  JsSet.has user (users_of rid σ).

(** ** Vocabulary of the statements *)

(** The payload the client builds for [send_message]:
    [{ roomId: currentRoom, message: newMessage }]. *)
Definition payload (rid body : str) : JsVal :=
  JObj [(js "roomId", JStr rid); (js "message", JStr body)].

(** The membership check of [send_message] on the value of [roomId]:
    the room exists and its [users] hold the sender's user object. *)
Definition in_targeted_room (roomId : JsVal) (user : User) (σ : State) : bool :=
  match rooms_get roomId σ with
  | Some (_, room) => JsSet.has user (r_users room)
  | None => false
  end.

(** A post: the sending socket, the body typed by the client, and what
    the clock and the random generator give when it is handled. *)
Record Post := mkPost {
  p_sid : str;
  p_body : str;
  p_now : str;
  p_rnd : str;
  p_ts : str
}.

Definition post_action (rid : str) (p : Post) : Action :=
  SendMessage (p_sid p) (payload rid (p_body p)) (p_now p) (p_rnd p) (p_ts p).

(** The message object the handler builds for a post. *)
Definition stamp (user : User) (body now rnd ts : str) : Message :=
  mkMessage (js "msg_" ++ now ++ js "_" ++ rnd) user (JsString.trim body) ts.

Definition stamped (σ : State) (p : Post) : option Message :=
  sk ← sockets σ !! p_sid p;
  Some (stamp (s_user sk) (p_body p) (p_now p) (p_rnd p) (p_ts p)).

(** The connection [sid] is open and its user object is in the [users]
    of room [rid]. *)
Definition connected_member (sid rid : str) (σ : State) : bool :=
  match sockets σ !! sid with
  | Some sk => is_member (s_user sk) rid σ
  | None => false
  end.

(** The chat rooms of a socket: [socket.rooms] without the socket's own room. *)
Definition chat_rooms (sid : str) (σ : State) : list str :=
  filter (λ r, r ≠ sid) (SocketIO.socket_rooms sid σ).

(** What holds in every state the server reaches. *)
Record Inv (σ : State) : Prop := mkInv {
  (* no room is keyed by the id of a connected socket *)
  inv_ids : ∀ sid sk, sockets σ !! sid = Some sk → rooms σ !! sid = None;
  (* a socket is in its own room and in at most one chat room *)
  inv_rooms : ∀ sid sk, sockets σ !! sid = Some sk →
      s_rooms sk = [sid] ∨ ∃ rid, s_rooms sk = [sid; rid] ∧ is_Some (rooms σ !! rid);
  (* for a connected socket, [room.users] and [socket.rooms] agree *)
  inv_member : ∀ sid sk rid room,
      sockets σ !! sid = Some sk → rooms σ !! rid = Some room →
      JsSet.has (s_user sk) (r_users room) = true ↔ rid ∈ s_rooms sk;
  (* user objects are allocated once *)
  inv_ref : ∀ sid sk, sockets σ !! sid = Some sk → u_ref (s_user sk) < next_ref σ;
  inv_ref_inj : ∀ sid1 sid2 sk1 sk2,
      sockets σ !! sid1 = Some sk1 → sockets σ !! sid2 = Some sk2 →
      u_ref (s_user sk1) = u_ref (s_user sk2) → sid1 = sid2;
  inv_users_ref : ∀ rid room u,
      rooms σ !! rid = Some room → u ∈ r_users room → u_ref u < next_ref σ;
  (* the history bound *)
  inv_history : ∀ rid room, rooms σ !! rid = Some room → length (r_messages room) ≤ 100
}.

(** The state an accepted post leaves. *)
Definition posted (rid : str) (room : Room) (m : Message) (σ : State) : State :=
  set_rooms (<[rid := mkRoom (r_name room) (store_message m (r_messages room))
                        (r_users room)]> (rooms σ)) σ.

(** The room stored under [r'] after a socket with user object [u]
    joined [rid]: [u] is gone from wherever it was and is the last
    element of the [users] of [rid]. *)
Definition joined_users (u : User) (rid r' : str) (room' : Room) : Room :=
  with_users (if bool_decide (r' = rid) then JsSet.delete u (r_users room') ++ [u]
              else JsSet.delete u (r_users room')) room'.

(** The state after the socket left the chat room [r0] it was in. *)
Definition left_state (sid : str) (u : User) (r0 : str) (prev : Room) (σ : State) : State :=
  set_rooms (<[r0 := with_users (JsSet.delete u (r_users prev)) prev]> (rooms σ))
    (SocketIO.leave sid r0 σ).

(** The [user_left] events socket [c] gets when socket [sid] leaves the
    chat rooms it is in. *)
Definition left_notices (c sid : str) (u : User) (σ : State) : list Event :=
  r0 ← chat_rooms sid σ;
  if bool_decide (c ∈ SocketIO.in_room r0 σ)
  then [EvUserLeft u (JsSet.delete u (users_of r0 σ))] else [].

(** The room a connection is expected to be in after an action: the
    target of its last join that found the room.  A [leave_room] event
    does not change it. *)
Definition track (sid : str) (a : Action) (σ : State) (cur : option str) : option str :=
  match a with
  | Connect c _ _ _ _ => if bool_decide (c = sid) then None else cur
  | JoinRoom c (JStr rid) =>
      if bool_decide (c = sid ∧ is_Some (rooms σ !! rid)) then Some rid else cur
  | Disconnect c => if bool_decide (c = sid) then None else cur
  | _ => cur
  end.

Fixpoint last_joined (sid : str) (acts : list Action) (σ : State) (cur : option str)
    : option str :=
  match acts with
  | [] => cur
  | a :: rest =>
      match handle a σ with
      | Some (Returns σ' _) => last_joined sid rest σ' (track sid a σ cur)
      | _ => cur
      end
  end.

(** [socket.rooms] of the connection is its own room followed by the
    tracked room. *)
Definition agrees (sid : str) (σ : State) (cur : option str) : Prop :=
  ∀ sk, sockets σ !! sid = Some sk → s_rooms sk = sid :: option_list cur.

(** The state a sequence of actions leads to from start-up, and what
    was emitted on the way. *)
Definition final (acts : list Action) : State :=
  from_option fst init (run acts init).

Definition emitted (acts : list Action) : list Emit :=
  from_option snd [] (run acts init).

(** The state after, and the packets emitted by, one action that returns. *)
Definition step_state (a : Action) (σ : State) : State :=
  match handle a σ with
  | Some (Returns σ' _) => σ'
  | _ => σ
  end.

Definition step_out (a : Action) (σ : State) : list Emit :=
  match handle a σ with
  | Some (Returns _ out) => out
  | _ => []
  end.

(** ** A scenario: two rooms, two connections *)
Module Demo.

Definition alice : str := js "sock-alice".
Definition bob : str := js "sock-bob".
Definition general : str := room_id (js "1") (js "a").
Definition lounge : str := room_id (js "2") (js "b").

Definition user_alice : User :=
  mkUser 0 (js "u1") (js "Alice") (js "alice@example.org") (js "alice.png").
Definition user_bob : User :=
  mkUser 1 (js "u2") (js "Bob") (js "bob@example.org") (js "bob.png").

Definition setup : list Action :=
  [ PostRooms (js "1") (js "a") (js "general");
    PostRooms (js "2") (js "b") (js "lounge");
    Connect alice (js "u1") (js "Alice") (js "alice@example.org") (js "alice.png");
    Connect bob (js "u2") (js "Bob") (js "bob@example.org") (js "bob.png") ].

(** Both rooms exist, both sockets are connected, nobody has joined. *)
Definition lobby : State := final setup.

(** Alice is alone in [general]. *)
Definition alone : State := final (setup ++ [JoinRoom alice (JStr general)]).

(** Alice, then Bob, joined [general]. *)
Definition together : State :=
  final (setup ++ [JoinRoom alice (JStr general); JoinRoom bob (JStr general)]).

(** 101 posts of Alice, numbered in their bodies. *)
Definition posts : list Post :=
  (λ n, mkPost alice [N.of_nat n] (js "7") (js "r") (js "t")) <$> seq 0 101.

Definition hello : Post := mkPost alice (js "  hello ") (js "7") (js "r") (js "t").
Definition hi : Post := mkPost bob (js "hi") (js "8") (js "s") (js "t").

(** A body of three spaces. *)
Definition blank : Post := mkPost alice (js "   ") (js "7") (js "r") (js "t").

(** A payload without a [message] field. *)
Definition no_message : JsVal := JObj [(js "roomId", JStr general)].

(** The room [general] while Alice is alone in it. *)
Definition general_alone : Room := mkRoom (js "general") [] [user_alice].

(** The id of a room that was never created. *)
Definition nowhere : str := room_id (js "9") (js "z").

(** Alice joins [general], then [lounge]. *)
Definition hopping : list Action :=
  setup ++ [JoinRoom alice (JStr general); JoinRoom alice (JStr lounge)].

(** Alice joins [general] and sends a [leave_room] event for it. *)
Definition leaving : list Action :=
  setup ++ [JoinRoom alice (JStr general); LeaveRoom alice (JStr general)].

End Demo.

(** ** The REST routes *)

(** [!v] is false: the truthiness of a JSON value. *)
Definition truthy (v : JsVal) : bool :=
  match v with
  | JUndefined | JNull => false
  | JBool b => b
  | JNum z => negb (z =? 0)%Z
  | JStr s => negb (bool_decide (s = []))
  | JArr _ | JObj _ => true
  end.

(** What a route answers: [res.json({ id, name })], [res.json(room.messages)],
    or a status with [{ error }]. *)
Inductive Response :=
| RoomCreated (id name : str)
| MessageList (messages : list Message)
| Failed (status : nat) (error : str).

(** [app.post('/api/rooms', ...)] on the [name] of the request body.  A
    [name] that is truthy and not a string makes [name.trim()] throw;
    the error-handling middleware registered last answers 500. *)
Definition api_post_rooms (name : JsVal) (now rnd : str) (σ : State) : Response * State :=
  if negb (truthy name) then (Failed 400 (js "Room name is required"), σ)
  else
    match name with
    | JStr s =>
        if bool_decide (length (JsString.trim s) = 0)
        then (Failed 400 (js "Room name is required"), σ)
        else (RoomCreated (room_id now rnd) (JsString.trim s),
              post_rooms (room_id now rnd) s σ)
    | _ => (Failed 500 (js "Something went wrong!"), σ)
    end.

(** [app.get('/api/rooms/:id/messages', ...)] *)
Definition api_get_messages (id : str) (σ : State) : Response :=
  match rooms σ !! id with
  | None => Failed 404 (js "Room not found")
  | Some room => MessageList (r_messages room)
  end.

(** One element of the answer of [app.get('/api/rooms', ...)]:
    [{ id, name: room.name, userCount: room.users.size, users: Array.from(room.users) }]. *)
Record RoomInfo := mkRoomInfo {
  ri_id : str;
  ri_name : str;
  ri_userCount : nat;
  ri_users : list User
}.

Definition room_info (id : str) (room : Room) : RoomInfo :=
  mkRoomInfo id (r_name room) (length (r_users room)) (r_users room).

(** ** The token middleware *)

(** [s.split(sep)] for a separator of one code unit. *)
Fixpoint split_on (sep : N) (s : str) : list str :=
  match s with
  | [] => [[]]
  | c :: s' =>
      if (c =? sep)%N then [] :: split_on sep s'
      else
        match split_on sep s' with
        | piece :: pieces => (c :: piece) :: pieces
        | [] => [[c]]
        end
  end.

(** What [authenticateToken] does with a request: 401, 403, or [next()]
    with the decoded user in [req.user]. *)
Inductive Auth (A : Type) :=
| Unauthorized
| Forbidden
| Next (user : A).
Arguments Unauthorized {A}.
Arguments Forbidden {A}.
Arguments Next {A} user.

(** [authHeader && authHeader.split(' ')[1]]: [None] is [undefined]. *)
Definition header_token (authHeader : option str) : option str :=
  match authHeader with
  | None => None
  | Some h => if bool_decide (h = []) then Some [] else split_on 32 h !! 1
  end.

Section Token.

(** [jwt.verify(token, secret, callback)]: the decoded payload, or an error. *)
Context {A : Type} (verify : str → option A).

(** [authenticateToken], on the value of the [authorization] header. *)
Definition authenticateToken (authHeader : option str) : Auth A :=
  match header_token authHeader with
  | None | Some [] => Unauthorized
  | Some token =>
      match verify token with
      | None => Forbidden
      | Some user => Next user
      end
  end.

End Token.

(** ** The client *)
Module Client.

(** The state of the [ChatApp] component the handlers read and write;
    [connected] says that [socket] is not [null]. *)
Record ChatApp := mkChatApp {
  connected : bool;
  currentRoom : option str;
  messages : list Message;
  newMessage : str;
  onlineUsers : list User
}.

(** [joinRoom(roomId)]: what is emitted, if anything, and the new state. *)
Definition joinRoom (roomId : str) (st : ChatApp) : option JsVal * ChatApp :=
  if connected st && negb (bool_decide (Some roomId = currentRoom st))
  then (Some (JStr roomId),
        mkChatApp (connected st) (Some roomId) [] (newMessage st) (onlineUsers st))
  else (None, st).

(** [sendMessage()]: the payload of the [send_message] emitted, if any,
    and the new state.  An empty [currentRoom] is falsy like [null]. *)
Definition sendMessage (st : ChatApp) : option JsVal * ChatApp :=
  match currentRoom st with
  | Some room =>
      if connected st && negb (bool_decide (room = []))
         && negb (bool_decide (JsString.trim (newMessage st) = []))
      then (Some (payload room (newMessage st)),
            mkChatApp (connected st) (currentRoom st) (messages st) [] (onlineUsers st))
      else (None, st)
  | None => (None, st)
  end.

(** The listeners the socket effect registers for the events of the
    server; an [error] is only logged and there is no listener for
    [user_typing]. *)
Definition on_event (st : ChatApp) (ev : Event) : ChatApp :=
  match ev with
  | EvMessage m =>
      mkChatApp (connected st) (currentRoom st) (messages st ++ [m]) (newMessage st)
        (onlineUsers st)
  | EvMessageHistory _ history =>
      mkChatApp (connected st) (currentRoom st) history (newMessage st) (onlineUsers st)
  | EvUserJoined _ users | EvUserLeft _ users | EvRoomUsers _ users =>
      mkChatApp (connected st) (currentRoom st) (messages st) (newMessage st) users
  | EvError _ | EvUserTyping _ _ => st
  end.

End Client.

(** ** More of the vocabulary *)

(** The user object of a connected socket, as an identity. *)
Definition ref_of (σ : State) (sid : str) : nat :=
  from_option (λ sk, u_ref (s_user sk)) 0 (sockets σ !! sid).

(** A string with no white space at either end. *)
Definition trimmed (s : str) : Prop :=
  (∀ c, head s = Some c → JsString.is_white_space c = false)
  ∧ (∀ c, last s = Some c → JsString.is_white_space c = false).

(** The result of a run from a state in which it succeeds. *)
Definition ran (acts : list Action) (σ : State) : State * list Emit :=
  default (σ, []) (run acts σ).

(** A second scenario: Alice has two tabs open. *)
Module Tour.

Definition alice2 : str := js "sock-alice-2".

(** Both rooms, Alice in [general] from her first tab, her second tab
    connected, Bob in [general]. *)
Definition two_tabs : State :=
  final (Demo.setup
         ++ [JoinRoom Demo.alice (JStr Demo.general);
             Connect alice2 (js "u1") (js "Alice") (js "alice@example.org") (js "alice.png");
             JoinRoom Demo.bob (JStr Demo.general)]).

(** Alice posted once in [general] while alone there. *)
Definition posted_once : State :=
  step_state (post_action Demo.general Demo.hello) Demo.alone.

(** The client of someone looking at [general] with a draft typed. *)
Definition drafting : Client.ChatApp :=
  Client.mkChatApp true (Some Demo.general) [] (js " hey ") [].

(** A client that is connected and has not chosen a room. *)
Definition idle : Client.ChatApp := Client.mkChatApp true None [] [] [].

(** The user object of Alice's second tab. *)
Definition user_alice2 : User :=
  mkUser 2 (js "u1") (js "Alice") (js "alice@example.org") (js "alice.png").

(** The room [general] with Alice and Bob in it. *)
Definition general_full : Room :=
  mkRoom (js "general") [] [Demo.user_alice; Demo.user_bob].

(** The message of the post [Demo.hello], and the room after it. *)
Definition hello_stamped : Message :=
  stamp Demo.user_alice (p_body Demo.hello) (p_now Demo.hello) (p_rnd Demo.hello)
    (p_ts Demo.hello).

Definition general_posted : Room :=
  mkRoom (js "general") [hello_stamped] [Demo.user_alice].

(** Alice joins, posts, and Bob comes and goes. *)
Definition evening : list Action :=
  [ JoinRoom Demo.alice (JStr Demo.general);
    post_action Demo.general Demo.hello;
    JoinRoom Demo.bob (JStr Demo.general);
    Disconnect Demo.bob ].

(** A [typing] payload for [general]. *)
Definition typing_in_general : JsVal :=
  JObj [(js "roomId", JStr Demo.general); (js "isTyping", JBool true)].

(** A verifier that knows one token. *)
Definition check_token (token : str) : option nat :=
  if bool_decide (token = js "abc") then Some 7 else None.

End Tour.

(** * Properties *)

(** ** [String.prototype.trim] *)
Section Trim.
Import JsString.

Lemma trimStart_spec (s : str) :
  ∃ pre, s = pre ++ trimStart s ∧ all_white_space pre
         ∧ ∀ c, head (trimStart s) = Some c → is_white_space c = false.
Proof.
  induction s as [|c s IH]; simpl.
  - exists []. repeat split; [constructor | discriminate].
  - destruct (is_white_space c) eqn:Hc.
    + destruct IH as (pre & Heq & Hpre & Hhd).
      exists (c :: pre). repeat split; [simpl; congruence | by constructor | done].
    + exists []. repeat split; [constructor |].
      simpl. intros c' [= <-]. done.
Qed.

Lemma trimEnd_spec (s : str) :
  ∃ post, s = trimEnd s ++ post ∧ all_white_space post
          ∧ ∀ c, last (trimEnd s) = Some c → is_white_space c = false.
Proof.
  unfold trimEnd.
  destruct (trimStart_spec (reverse s)) as (pre & Heq & Hpre & Hhd).
  exists (reverse pre). repeat split.
  - rewrite <- reverse_app, <- Heq. by rewrite reverse_involutive.
  - unfold all_white_space in *. by apply Forall_reverse.
  - intros c. rewrite last_reverse. apply Hhd.
Qed.

(** What [trim] returns: the input without a leading and a trailing run
    of white space, and with no white space left at either end. *)
Lemma trim_spec (s : str) :
  ∃ pre post, s = pre ++ trim s ++ post
    ∧ all_white_space pre ∧ all_white_space post
    ∧ (∀ c, head (trim s) = Some c → is_white_space c = false)
    ∧ (∀ c, last (trim s) = Some c → is_white_space c = false).
Proof.
  unfold trim.
  destruct (trimStart_spec s) as (pre & Heq & Hpre & Hhd).
  destruct (trimEnd_spec (trimStart s)) as (post & Heq' & Hpost & Hlast).
  exists pre, post. repeat split; [congruence | done | done | | done].
  intros c Hc. apply Hhd. rewrite Heq'.
  destruct (trimEnd (trimStart s)); [discriminate | done].
Qed.

(** A string of white space only trims to the empty string. *)
Lemma trim_white_space (s : str) : all_white_space s → trim s = [].
Proof.
  intros Hs. unfold trim, trimEnd.
  assert (trimStart s = []) as ->; [| done].
  induction Hs as [|c s Hc _ IH]; simpl; [done | by rewrite Hc].
Qed.

End Trim.

(** ** JavaScript sets *)
Section JsSetFacts.
Import JsSet.

Lemma has_true (u : User) (l : list User) :
  has u l = true ↔ ∃ v, v ∈ l ∧ u_ref v = u_ref u.
Proof.
  unfold has. rewrite bool_decide_eq_true, list_elem_of_fmap. naive_solver.
Qed.

Lemma has_nil (u : User) : has u [] = false.
Proof. done. Qed.

Lemma has_delete (v u : User) (l : list User) :
  has v (delete u l) = true ↔ has v l = true ∧ u_ref v ≠ u_ref u.
Proof.
  rewrite !has_true. unfold delete. split.
  - intros (w & Hw & Href). apply list_elem_of_filter in Hw as [Hne Hw].
    split; [eauto | congruence].
  - intros [(w & Hw & Href) Hne]. exists w. split; [| done].
    apply list_elem_of_filter. split; [congruence | done].
Qed.

Lemma has_delete_self (u : User) (l : list User) : has u (delete u l) = false.
Proof.
  apply not_true_is_false. rewrite has_delete. naive_solver.
Qed.

Lemma has_app (v : User) (l k : list User) :
  has v (l ++ k) = true ↔ has v l = true ∨ has v k = true.
Proof.
  rewrite !has_true. setoid_rewrite elem_of_app. naive_solver.
Qed.

Lemma has_add (v u : User) (l : list User) :
  has v (add u l) = true ↔ has v l = true ∨ u_ref v = u_ref u.
Proof.
  unfold add. destruct (has u l) eqn:Hu.
  - split; [auto |]. intros [H | H]; [done |].
    apply has_true in Hu as (w & Hw & Href). apply has_true. exists w. split; [done | congruence].
  - rewrite has_app. rewrite (has_true v [u]). split.
    + intros [H | (w & Hw & Href)]; [auto |]. apply list_elem_of_singleton in Hw as ->. auto.
    + intros [H | H]; [auto |]. right. exists u. split; [by apply list_elem_of_singleton | done].
Qed.

Lemma delete_absent (u : User) (l : list User) : has u l = false → delete u l = l.
Proof.
  intros Hu. unfold delete.
  assert (Forall (λ v, u_ref v ≠ u_ref u) l) as Hall.
  { apply Forall_forall. intros v Hv Href.
    apply not_true_iff_false in Hu. apply Hu, has_true. eauto. }
  induction Hall as [|v l Hv _ IH]; [done |].
  rewrite filter_cons_True by done. f_equal. apply IH.
  apply not_true_is_false. intros Hh. apply not_true_iff_false in Hu. apply Hu.
  apply has_true in Hh as (w & Hw & Href). apply has_true. exists w. split; [by right | done].
Qed.

Lemma add_after_delete (u : User) (l : list User) : add u (delete u l) = delete u l ++ [u].
Proof. unfold add. by rewrite has_delete_self. Qed.

Lemma elem_of_delete (v u : User) (l : list User) : v ∈ delete u l → v ∈ l.
Proof. unfold delete. rewrite list_elem_of_filter. tauto. Qed.

Lemma elem_of_add (v u : User) (l : list User) : v ∈ add u l → v ∈ l ∨ v = u.
Proof.
  unfold add. destruct (has u l); [auto |].
  rewrite elem_of_app, list_elem_of_singleton. tauto.
Qed.

End JsSetFacts.

(** ** The history buffer *)

Lemma slice_last_length {A} (n : nat) (l : list A) : length (slice_last n l) = min n (length l).
Proof. unfold slice_last. rewrite length_drop. lia. Qed.

Lemma slice_last_all {A} (n : nat) (l : list A) : length l ≤ n → slice_last n l = l.
Proof. intros H. unfold slice_last. by replace (length l - n) with 0 by lia. Qed.

Lemma store_message_slice (m : Message) (h : list Message) :
  store_message m h = slice_last 100 (h ++ [m]).
Proof.
  unfold store_message. case_bool_decide; [done |].
  symmetry. apply slice_last_all. lia.
Qed.

Lemma store_message_length (m : Message) (h : list Message) :
  length (store_message m h) ≤ 100.
Proof. rewrite store_message_slice, slice_last_length. lia. Qed.

Lemma store_message_last (m : Message) (h : list Message) :
  last (store_message m h) = Some m.
Proof.
  rewrite store_message_slice. unfold slice_last.
  rewrite length_app. simpl.
  replace (length h + 1 - 100) with (length h - 99) by lia.
  rewrite drop_app_le by lia. by rewrite last_snoc.
Qed.

Lemma slice_last_app {A} (n : nat) (l k : list A) :
  slice_last n (slice_last n l ++ k) = slice_last n (l ++ k).
Proof.
  unfold slice_last. rewrite !length_app, length_drop.
  destruct (decide (length l ≤ n)) as [Hle | Hgt].
  - replace (length l - n) with 0 by lia. simpl. by rewrite Nat.sub_0_r.
  - replace (length l - (length l - n) + length k - n) with (length k) by lia.
    replace (length l + length k - n) with ((length l - n) + length k) by lia.
    rewrite <- drop_drop. f_equal.
    rewrite drop_app_le by lia. done.
Qed.

(** ** The [send_message] listener *)

Lemma destructure_payload (rid body : str) :
  destructure (payload rid body) = Some (JStr rid, JStr body).
Proof. reflexivity. Qed.

Lemma users_of_lookup (rid : str) (room : Room) (σ : State) :
  rooms σ !! rid = Some room → users_of rid σ = r_users room.
Proof. unfold users_of. by intros ->. Qed.

Lemma messages_of_lookup (rid : str) (room : Room) (σ : State) :
  rooms σ !! rid = Some room → messages_of rid σ = r_messages room.
Proof. unfold messages_of. by intros ->. Qed.

Lemma send_message_accepted σ sid user data rid room body now rnd ts :
  destructure data = Some (JStr rid, JStr body) →
  rooms σ !! rid = Some room →
  JsSet.has user (r_users room) = true →
  send_message sid user data now rnd ts σ
  = Returns (posted rid room (stamp user body now rnd ts) σ)
      (SocketIO.io_to_emit rid (EvMessage (stamp user body now rnd ts))
         (posted rid room (stamp user body now rnd ts) σ)).
Proof.
  intros Hd Hroom Hmem. unfold send_message.
  rewrite Hd. simpl. rewrite Hroom. simpl. rewrite Hmem. reflexivity.
Qed.

Lemma posted_messages rid room m σ :
  messages_of rid (posted rid room m σ) = store_message m (r_messages room).
Proof. unfold messages_of, posted. simpl. by rewrite lookup_insert_eq. Qed.

Lemma posted_users rid room m σ rid' :
  rooms σ !! rid = Some room → users_of rid' (posted rid room m σ) = users_of rid' σ.
Proof.
  intros Hroom. unfold users_of, posted. simpl.
  destruct (decide (rid = rid')) as [<- | Hne].
  - by rewrite lookup_insert_eq, Hroom.
  - by rewrite lookup_insert_ne.
Qed.

Lemma posted_in_room rid room m σ rid' :
  SocketIO.in_room rid' (posted rid room m σ) = SocketIO.in_room rid' σ.
Proof. reflexivity. Qed.

(** C9. The [message] stored and broadcast by an accepted post is the
    client's body with the leading and the trailing white space removed:
    the handler stamps [message.trim()], so the last entry of the room's
    history and the event of every packet of the broadcast carry the
    trimmed body, which is the body minus a white-space prefix and a
    white-space suffix and has no white space at either end. *)
Theorem stored_body_is_trimmed σ sid user data rid room body now rnd ts :
  destructure data = Some (JStr rid, JStr body) →
  rooms σ !! rid = Some room →
  JsSet.has user (r_users room) = true →
  ∃ σ' out m,
    send_message sid user data now rnd ts σ = Returns σ' out
    ∧ last (messages_of rid σ') = Some m
    ∧ (∀ e : Emit, e ∈ out → e.2 = EvMessage m)
    ∧ m_message m = JsString.trim body
    ∧ ∃ pre post, body = pre ++ m_message m ++ post
        ∧ JsString.all_white_space pre ∧ JsString.all_white_space post
        ∧ (∀ c, head (m_message m) = Some c → JsString.is_white_space c = false)
        ∧ (∀ c, last (m_message m) = Some c → JsString.is_white_space c = false).
Proof.
  intros Hd Hroom Hmem.
  eexists _, _, (stamp user body now rnd ts). split.
  { by apply send_message_accepted. }
  split. { rewrite posted_messages. apply store_message_last. }
  split.
  { intros e He. unfold SocketIO.io_to_emit in He.
    apply list_elem_of_fmap in He as (c & -> & _). done. }
  split; [done |]. apply trim_spec.
Qed.

(** C8 (amended). A send whose sender is not in the targeted room is
    rejected without side effects, whatever the [message] field is: the
    handler returns, the only packet is an [error] to the sender, the
    state (so every history) is unchanged and no [message] event is
    emitted.  The error is 'You are not in this room' when the room
    exists and 'Room not found' when it does not. *)
Theorem not_a_member_rejected σ sid user data roomId message now rnd ts :
  destructure data = Some (roomId, message) →
  in_targeted_room roomId user σ = false →
  ∃ σ' out,
    send_message sid user data now rnd ts σ = Returns σ' out
    ∧ out = [(sid, EvError (if rooms_get roomId σ is Some _
                            then js "You are not in this room"
                            else js "Room not found"))]
    ∧ σ' = σ
    ∧ (∀ r, messages_of r σ' = messages_of r σ)
    ∧ (∀ e : Emit, e ∈ out → e.1 = sid)
    ∧ (∀ c m, (c, EvMessage m) ∉ out).
Proof.
  intros Hd Hmem. unfold in_targeted_room in Hmem.
  exists σ, [(sid, EvError (if rooms_get roomId σ is Some _
                            then js "You are not in this room"
                            else js "Room not found"))].
  split.
  { unfold send_message. rewrite Hd.
    destruct (rooms_get roomId σ) as [[rid room]|]; [| reflexivity].
    rewrite Hmem. reflexivity. }
  split; [done |]. split; [done |]. split; [done |]. split.
  - intros e He. by apply list_elem_of_singleton in He as ->.
  - intros c m He. by apply list_elem_of_singleton in He.
Qed.

(** C10. The handler is partial.  For a payload that can be
    destructured, it throws exactly when the room exists, the sender
    passes the membership check and the [message] field is not a string
    (the call of [trim] fails, after both checks and before anything is
    stored or emitted); so a payload with a string body never throws. *)
Theorem send_message_throws_iff σ sid user data roomId message now rnd ts :
  destructure data = Some (roomId, message) →
  send_message sid user data now rnd ts σ = Throws
  ↔ (∃ rid room, roomId = JStr rid ∧ rooms σ !! rid = Some room
                 ∧ JsSet.has user (r_users room) = true)
    ∧ ∀ body, message ≠ JStr body.
Proof.
  intros Hd. unfold send_message. rewrite Hd. split.
  - destruct (rooms_get roomId σ) as [[rid room]|] eqn:Hget; [| done].
    destruct (JsSet.has user (r_users room)) eqn:Hmem; simpl; [| done].
    destruct message; simpl; try done; intros _.
    all: split; [| done].
    all: destruct roomId; simpl in Hget; try done.
    all: destruct (rooms σ !! s) as [room'|] eqn:Hroom; simplify_eq/=.
    all: eauto.
  - intros [(rid & room & -> & Hroom & Hmem) Hnot]. simpl. rewrite Hroom. simpl.
    rewrite Hmem. simpl. destruct message; try done. by destruct (Hnot s).
Qed.

(** ** Broadcasts *)

Lemma socket_rooms_lookup sid sk σ :
  sockets σ !! sid = Some sk → SocketIO.socket_rooms sid σ = s_rooms sk.
Proof. unfold SocketIO.socket_rooms. by intros ->. Qed.

Lemma elem_of_in_room c rid σ :
  c ∈ SocketIO.in_room rid σ ↔ ∃ sk, sockets σ !! c = Some sk ∧ rid ∈ s_rooms sk.
Proof.
  unfold SocketIO.in_room. rewrite list_elem_of_fmap. split.
  - intros ([c' sk] & -> & Hin). apply list_elem_of_filter in Hin as [Hr Hin].
    apply elem_of_map_to_list in Hin. eauto.
  - intros (sk & Hsk & Hr). exists (c, sk). split; [done |].
    apply list_elem_of_filter. split; [done |]. by apply elem_of_map_to_list.
Qed.

Lemma NoDup_in_room rid σ : NoDup (SocketIO.in_room rid σ).
Proof.
  unfold SocketIO.in_room.
  eapply sublist_NoDup; [apply (NoDup_fst_map_to_list (sockets σ)) |].
  apply fmap_sublist, sublist_filter.
Qed.

Lemma received_app c (out1 out2 : list Emit) :
  received c (out1 ++ out2) = received c out1 ++ received c out2.
Proof. unfold received. by rewrite filter_app, fmap_app. Qed.

Lemma received_emit c sid ev :
  received c (SocketIO.emit sid ev) = if bool_decide (c = sid) then [ev] else [].
Proof.
  unfold received, SocketIO.emit.
  rewrite filter_cons, filter_nil. simpl.
  case_bool_decide; case_decide; naive_solver.
Qed.

Lemma received_fmap c ev (l : list str) :
  NoDup l →
  received c ((λ c', (c', ev)) <$> l) = if bool_decide (c ∈ l) then [ev] else [].
Proof.
  induction 1 as [|c' l Hc' Hl IH].
  - by rewrite bool_decide_eq_false_2 by apply not_elem_of_nil.
  - rewrite fmap_cons. change (received c ((c', ev) :: ?k)) with (received c ([(c', ev)] ++ k)).
    rewrite received_app, IH.
    change [(c', ev)] with (SocketIO.emit c' ev). rewrite received_emit.
    destruct (decide (c = c')) as [-> | Hne].
    + rewrite bool_decide_eq_true_2 by done.
      rewrite (bool_decide_eq_false_2 (c' ∈ l)) by done.
      by rewrite bool_decide_eq_true_2 by by left.
    + rewrite bool_decide_eq_false_2 by done. simpl.
      apply (f_equal (λ b : bool, if b then [ev] else [])).
      apply bool_decide_ext. rewrite elem_of_cons. naive_solver.
Qed.

Lemma received_io_to_emit c rid ev σ :
  received c (SocketIO.io_to_emit rid ev σ)
  = if bool_decide (c ∈ SocketIO.in_room rid σ) then [ev] else [].
Proof. apply received_fmap, NoDup_in_room. Qed.

Lemma received_to_emit c sid rid ev σ :
  received c (SocketIO.to_emit sid rid ev σ)
  = if bool_decide (c ≠ sid ∧ c ∈ SocketIO.in_room rid σ) then [ev] else [].
Proof.
  unfold SocketIO.to_emit. rewrite received_fmap by apply NoDup_filter, NoDup_in_room.
  apply (f_equal (λ b : bool, if b then [ev] else [])).
  apply bool_decide_ext. by rewrite list_elem_of_filter.
Qed.

(** ** The [join_room] listener *)

Lemma in_room_agree c r σ σ' :
  sockets σ' !! c = sockets σ !! c →
  c ∈ SocketIO.in_room r σ' ↔ c ∈ SocketIO.in_room r σ.
Proof. intros Heq. rewrite !elem_of_in_room. by rewrite Heq. Qed.

Lemma alter_lookup_insert {A} (f : A → A) (m : gmap str A) i x :
  m !! i = Some x → alter f i m = <[i := f x]> m.
Proof.
  intros Hi. apply map_eq. intros j. rewrite lookup_alter, lookup_insert.
  case_decide; [subst; by rewrite Hi | done].
Qed.

Lemma leave_previous_own sid u acc : leave_previous sid u acc sid = acc.
Proof. unfold leave_previous. by rewrite bool_decide_eq_false_2 by naive_solver. Qed.

Lemma leave_previous_room sid u σ out r0 prev :
  r0 ≠ sid → rooms σ !! r0 = Some prev →
  leave_previous sid u (σ, out) r0
  = (left_state sid u r0 prev σ,
     out ++ SocketIO.to_emit sid r0 (EvUserLeft u (JsSet.delete u (r_users prev)))
              (left_state sid u r0 prev σ)).
Proof.
  intros Hne Hprev. unfold leave_previous. rewrite bool_decide_eq_true_2 by done.
  simpl. by rewrite Hprev.
Qed.

Lemma join_room_found σ sid u rid room :
  rooms σ !! rid = Some room →
  join_room sid u (JStr rid) σ
  = let left := foldl (leave_previous sid u) (σ, []) (SocketIO.socket_rooms sid σ) in
    let σ' := add_user u rid (SocketIO.join sid rid left.1) in
    (σ', left.2 ++ join_events sid u rid σ').
Proof. intros Hroom. unfold join_room. simpl. by rewrite Hroom. Qed.

Lemma join_room_not_found σ sid u roomId :
  rooms_get roomId σ = None →
  join_room sid u roomId σ = (σ, [(sid, EvError (js "Room not found"))]).
Proof. intros Hget. unfold join_room. by rewrite Hget. Qed.

Lemma socket_not_room σ sid sk rid room :
  Inv σ → sockets σ !! sid = Some sk → rooms σ !! rid = Some room → rid ≠ sid.
Proof. intros HI Hsk Hroom ->. pose proof (inv_ids σ HI _ _ Hsk). congruence. Qed.

Lemma join_room_cases σ sid sk rid room :
  Inv σ → sockets σ !! sid = Some sk → rooms σ !! rid = Some room →
  (s_rooms sk = [sid]
   ∧ join_room sid (s_user sk) (JStr rid) σ
     = (add_user (s_user sk) rid (SocketIO.join sid rid σ),
        join_events sid (s_user sk) rid (add_user (s_user sk) rid (SocketIO.join sid rid σ))))
  ∨ ∃ r0 prev,
      s_rooms sk = [sid; r0] ∧ r0 ≠ sid ∧ rooms σ !! r0 = Some prev
      ∧ join_room sid (s_user sk) (JStr rid) σ
        = (add_user (s_user sk) rid (SocketIO.join sid rid (left_state sid (s_user sk) r0 prev σ)),
           SocketIO.to_emit sid r0
             (EvUserLeft (s_user sk) (JsSet.delete (s_user sk) (r_users prev)))
             (left_state sid (s_user sk) r0 prev σ)
           ++ join_events sid (s_user sk) rid
                (add_user (s_user sk) rid
                   (SocketIO.join sid rid (left_state sid (s_user sk) r0 prev σ)))).
Proof.
  intros HI Hsk Hroom. rewrite (join_room_found _ _ _ _ _ Hroom).
  rewrite (socket_rooms_lookup _ _ _ Hsk).
  destruct (inv_rooms σ HI _ _ Hsk) as [Hrs | (r0 & Hrs & [prev Hprev])]; rewrite Hrs;
    cbn [foldl]; rewrite leave_previous_own.
  - left. done.
  - right. exists r0, prev.
    assert (r0 ≠ sid) as Hne0 by eauto using socket_not_room.
    rewrite (leave_previous_room _ _ _ _ _ _ Hne0 Hprev). done.
Qed.

Lemma join_room_state σ sid sk rid room :
  Inv σ → sockets σ !! sid = Some sk → rooms σ !! rid = Some room →
  let r := join_room sid (s_user sk) (JStr rid) σ in
  sockets r.1 = <[sid := mkSock (s_user sk) [sid; rid]]> (sockets σ)
  ∧ (∀ r', rooms r.1 !! r' = joined_users (s_user sk) rid r' <$> rooms σ !! r')
  ∧ userSockets r.1 = userSockets σ ∧ socketUsers r.1 = socketUsers σ
  ∧ next_ref r.1 = next_ref σ.
Proof.
  intros HI Hsk Hroom.
  assert (rid ≠ sid) as Hne by eauto using socket_not_room.
  assert (∀ r' room', rooms σ !! r' = Some room' → r' ∉ s_rooms sk →
            JsSet.delete (s_user sk) (r_users room') = r_users room') as Hout.
  { intros r' room' Hr' Hnin. apply delete_absent, not_true_is_false.
    by rewrite (inv_member σ HI _ _ _ _ Hsk Hr'). }
  destruct (join_room_cases σ sid sk rid room HI Hsk Hroom)
    as [[Hrs ->] | (r0 & prev & Hrs & Hne0 & Hprev & ->)]; simpl.
  - split.
    { rewrite (alter_lookup_insert _ _ _ _ Hsk). rewrite Hrs.
      rewrite bool_decide_eq_false_2; [done |]. rewrite list_elem_of_singleton. done. }
    split; [| done].
    intros r'. rewrite lookup_alter. unfold joined_users. case_decide as Hr'.
    + subst r'. rewrite Hroom. simpl. rewrite bool_decide_eq_true_2 by done.
      f_equal. f_equal. rewrite (Hout rid room); [| done | rewrite Hrs, list_elem_of_singleton; done].
      unfold JsSet.add.
      assert (JsSet.has (s_user sk) (r_users room) = false) as ->; [| done].
      apply not_true_is_false.
      rewrite (inv_member σ HI _ _ _ _ Hsk Hroom), Hrs, list_elem_of_singleton. done.
    + destruct (rooms σ !! r') as [room'|] eqn:Hl; [| done]. simpl.
      rewrite bool_decide_eq_false_2 by done.
      rewrite (Hout r' room'); [by destruct room' | done |].
      rewrite Hrs, list_elem_of_singleton. intros ->.
      pose proof (inv_ids σ HI _ _ Hsk). congruence.
  - split.
    { rewrite (alter_lookup_insert _ _ _ _ Hsk), alter_insert_eq. simpl. rewrite Hrs.
      rewrite filter_cons_True by done. rewrite filter_cons_False by naive_solver.
      rewrite filter_nil. simpl.
      rewrite bool_decide_eq_false_2; [done |]. rewrite list_elem_of_singleton. done. }
    split; [| done].
    intros r'. rewrite lookup_alter. unfold joined_users.
    destruct (decide (rid = r')) as [<- | Hr'].
    + rewrite bool_decide_eq_true_2 by done.
      destruct (decide (r0 = rid)) as [-> | Hr0].
      * rewrite lookup_insert_eq.
        rewrite Hroom in Hprev. injection Hprev as <-. rewrite Hroom. simpl.
        unfold with_users. simpl. by rewrite add_after_delete.
      * rewrite lookup_insert_ne by done. rewrite Hroom. simpl. f_equal. f_equal.
        rewrite (Hout rid room); [| done |].
        2:{ rewrite Hrs, !elem_of_cons, elem_of_nil. naive_solver. }
        unfold JsSet.add.
        assert (JsSet.has (s_user sk) (r_users room) = false) as ->; [| done].
        apply not_true_is_false. rewrite (inv_member σ HI _ _ _ _ Hsk Hroom), Hrs.
        rewrite !elem_of_cons, elem_of_nil. naive_solver.
    + rewrite bool_decide_eq_false_2 by done.
      destruct (decide (r0 = r')) as [<- | Hr0].
      * rewrite lookup_insert_eq. by rewrite Hprev.
      * rewrite lookup_insert_ne by done.
        destruct (rooms σ !! r') as [room'|] eqn:Hl; [| done]. simpl.
        rewrite (Hout r' room'); [by destruct room' | done |].
        rewrite Hrs, !elem_of_cons, elem_of_nil.
        intros [-> | [-> | []]]; [| done].
        pose proof (inv_ids σ HI _ _ Hsk). congruence.
Qed.

Lemma received_join_events c sid u rid σ :
  received c (join_events sid u rid σ)
  = if bool_decide (c = sid)
    then [EvRoomUsers rid (users_of rid σ); EvMessageHistory rid (messages_of rid σ)]
    else if bool_decide (c ∈ SocketIO.in_room rid σ)
         then [EvUserJoined u (users_of rid σ)] else [].
Proof.
  unfold join_events. rewrite !received_app, received_to_emit, !received_emit.
  destruct (decide (c = sid)) as [-> | Hne].
  - rewrite bool_decide_eq_false_2 by naive_solver.
    by rewrite bool_decide_eq_true_2 by done.
  - rewrite (bool_decide_eq_false_2 (c = sid)) by done. rewrite !app_nil_r.
    apply (f_equal (λ b : bool, if b then _ else _)).
    apply bool_decide_ext. naive_solver.
Qed.

Lemma join_room_received σ sid sk rid room c :
  Inv σ → sockets σ !! sid = Some sk → rooms σ !! rid = Some room →
  received c (join_room sid (s_user sk) (JStr rid) σ).2
  = if bool_decide (c = sid)
    then [EvRoomUsers rid (JsSet.delete (s_user sk) (r_users room) ++ [s_user sk]);
          EvMessageHistory rid (r_messages room)]
    else left_notices c sid (s_user sk) σ
         ++ (if bool_decide (c ∈ SocketIO.in_room rid σ)
             then [EvUserJoined (s_user sk)
                     (JsSet.delete (s_user sk) (r_users room) ++ [s_user sk])]
             else []).
Proof.
  intros HI Hsk Hroom.
  pose proof (join_room_state σ sid sk rid room HI Hsk Hroom) as (Hss & Hrs' & _).
  simpl in Hss, Hrs'.
  assert (users_of rid (join_room sid (s_user sk) (JStr rid) σ).1
          = JsSet.delete (s_user sk) (r_users room) ++ [s_user sk]) as Hus.
  { unfold users_of. rewrite Hrs', Hroom. simpl. by rewrite bool_decide_eq_true_2. }
  assert (messages_of rid (join_room sid (s_user sk) (JStr rid) σ).1 = r_messages room) as Hms.
  { unfold messages_of. by rewrite Hrs', Hroom. }
  assert (∀ r, c ≠ sid →
            c ∈ SocketIO.in_room r (join_room sid (s_user sk) (JStr rid) σ).1
            ↔ c ∈ SocketIO.in_room r σ) as Hin.
  { intros r Hc. apply in_room_agree. rewrite Hss. by rewrite lookup_insert_ne. }
  unfold left_notices, chat_rooms. rewrite (socket_rooms_lookup _ _ _ Hsk).
  destruct (join_room_cases σ sid sk rid room HI Hsk Hroom)
    as [[Hrs Heq] | (r0 & prev & Hrs & Hne0 & Hprev & Heq)];
    rewrite Heq in Hus, Hms, Hin |- *; cbn [snd fst] in *; rewrite Hrs.
  - rewrite filter_cons_False by naive_solver. rewrite filter_nil. simpl.
    rewrite received_join_events, Hus, Hms.
    destruct (decide (c = sid)) as [-> | Hc].
    { by rewrite bool_decide_eq_true_2 by done. }
    rewrite (bool_decide_eq_false_2 (c = sid)) by done.
    apply (f_equal (λ b : bool, if b then _ else _)), bool_decide_ext. by apply Hin.
  - rewrite filter_cons_False by naive_solver. rewrite filter_cons_True by done.
    rewrite filter_nil. simpl. rewrite app_nil_r.
    rewrite received_app, received_to_emit, received_join_events, Hus, Hms.
    rewrite (users_of_lookup _ _ _ Hprev).
    destruct (decide (c = sid)) as [-> | Hc].
    + rewrite bool_decide_eq_false_2 by naive_solver.
      by rewrite bool_decide_eq_true_2 by done.
    + rewrite (bool_decide_eq_false_2 (c = sid)) by done. f_equal.
      * apply (f_equal (λ b : bool, if b then _ else _)), bool_decide_ext.
        split; [intros [_ H] | intros H; split; [done |]]; revert H; apply in_room_agree;
          simpl; by rewrite lookup_alter_ne.
      * apply (f_equal (λ b : bool, if b then _ else _)), bool_decide_ext. by apply Hin.
Qed.

(** ** The invariant *)

Lemma send_message_returns σ sid user data now rnd ts σ' out :
  send_message sid user data now rnd ts σ = Returns σ' out →
  (σ' = σ ∧ ∃ detail, out = [(sid, EvError detail)])
  ∨ ∃ rid room body,
      destructure data = Some (JStr rid, JStr body)
      ∧ rooms σ !! rid = Some room ∧ JsSet.has user (r_users room) = true
      ∧ σ' = posted rid room (stamp user body now rnd ts) σ
      ∧ out = SocketIO.io_to_emit rid (EvMessage (stamp user body now rnd ts)) σ'.
Proof.
  unfold send_message.
  destruct (destructure data) as [[roomId message]|] eqn:Hd; [| done].
  destruct (rooms_get roomId σ) as [[rid room]|] eqn:Hget.
  2:{ intros [= <- <-]. left. eauto. }
  destruct (JsSet.has user (r_users room)) eqn:Hmem; simpl.
  2:{ intros [= <- <-]. left. eauto. }
  destruct roomId; simpl in Hget; try done.
  destruct (rooms σ !! s) as [room'|] eqn:Hroom; simplify_eq/=.
  destruct message; simpl; try done. intros [= <- <-].
  right. exists rid, room, s. done.
Qed.

Lemma typing_returns σ sid user data σ' out :
  typing sid user data σ = Returns σ' out → σ' = σ.
Proof. unfold typing. destruct data; try done; by intros [= <- _]. Qed.

Lemma disconnect_cleaned sid u σ :
  disconnect sid u (SocketIO.cleanup sid σ)
  = (mkState (rooms σ) (delete (u_id u) (userSockets σ)) (delete sid (socketUsers σ))
       (delete sid (sockets σ)) (next_ref σ), []).
Proof.
  unfold disconnect, SocketIO.socket_rooms, SocketIO.cleanup. simpl.
  by rewrite lookup_delete_eq.
Qed.

Lemma Inv_init : Inv init.
Proof. split; simpl; intros *; rewrite ?lookup_empty; done. Qed.

Lemma Inv_connection σ sid uid name email picture :
  Inv σ → sockets σ !! sid = None → rooms σ !! sid = None →
  Inv (connection sid uid name email picture σ).
Proof.
  intros HI Hfresh Hnoroom. split; simpl.
  - intros c sk. rewrite lookup_insert. case_decide; [naive_solver |]. apply (inv_ids σ HI).
  - intros c sk. rewrite lookup_insert. case_decide.
    + intros [= <-]. left. simpl. congruence.
    + apply (inv_rooms σ HI).
  - intros c sk rid room. rewrite lookup_insert. case_decide as Hc.
    + intros [= <-] Hroom. simpl. split.
      * intros Hhas. apply has_true in Hhas as (v & Hv & Href). simpl in Href.
        pose proof (inv_users_ref σ HI _ _ _ Hroom Hv). lia.
      * rewrite list_elem_of_singleton. intros ->. congruence.
    + exact (inv_member σ HI c sk rid room).
  - intros c sk. rewrite lookup_insert. case_decide.
    + intros [= <-]. simpl. lia.
    + intros Hc. pose proof (inv_ref σ HI _ _ Hc). lia.
  - intros c1 c2 sk1 sk2. rewrite !lookup_insert. repeat case_decide; try congruence.
    + intros [= <-] H2 Href. simpl in Href. pose proof (inv_ref σ HI _ _ H2). lia.
    + intros H1 [= <-] Href. simpl in Href. pose proof (inv_ref σ HI _ _ H1). lia.
    + apply (inv_ref_inj σ HI).
  - intros rid room u Hroom Hu. pose proof (inv_users_ref σ HI _ _ _ Hroom Hu). lia.
  - exact (inv_history σ HI).
Qed.

Lemma Inv_post_rooms σ rid name :
  Inv σ → rooms σ !! rid = None → sockets σ !! rid = None →
  Inv (post_rooms rid name σ).
Proof.
  intros HI Hfresh Hnosock. unfold post_rooms. case_bool_decide; [done |].
  split; simpl.
  - intros c sk Hc. rewrite lookup_insert_ne by congruence. by apply (inv_ids σ HI _ sk).
  - intros c sk Hc. destruct (inv_rooms σ HI _ _ Hc) as [? | (r & ? & [room Hr])]; [by left | right].
    exists r. split; [done |]. rewrite lookup_insert_ne by congruence. eauto.
  - intros c sk r room Hc. rewrite lookup_insert. case_decide as Hr.
    + subst r. intros [= <-]. simpl. split; [done |]. intros Hin.
      destruct (inv_rooms σ HI _ _ Hc) as [Hrs | (r & Hrs & [room Hr])]; rewrite Hrs in Hin.
      * apply list_elem_of_singleton in Hin. congruence.
      * rewrite !elem_of_cons, elem_of_nil in Hin. destruct Hin as [-> | [-> | []]]; congruence.
    + exact (inv_member σ HI c sk r room Hc).
  - exact (inv_ref σ HI).
  - exact (inv_ref_inj σ HI).
  - intros r room u. rewrite lookup_insert. case_decide.
    + intros [= <-]. simpl. by rewrite elem_of_nil.
    + apply (inv_users_ref σ HI).
  - intros r room. rewrite lookup_insert. case_decide.
    + intros [= <-]. simpl. lia.
    + apply (inv_history σ HI).
Qed.

Lemma Inv_posted σ rid room m :
  Inv σ → rooms σ !! rid = Some room → Inv (posted rid room m σ).
Proof.
  intros HI Hroom. split; simpl.
  - intros c sk Hc. rewrite lookup_insert_ne.
    + by apply (inv_ids σ HI _ sk).
    + intros <-. pose proof (inv_ids σ HI _ _ Hc). congruence.
  - intros c sk Hc. destruct (inv_rooms σ HI _ _ Hc) as [? | (r & ? & [room' Hr])]; [by left | right].
    exists r. split; [done |]. rewrite lookup_insert. case_decide; eauto.
  - intros c sk r room' Hc. rewrite lookup_insert. case_decide as Hr.
    + subst r. intros [= <-]. simpl. exact (inv_member σ HI c sk rid room Hc Hroom).
    + exact (inv_member σ HI c sk r room' Hc).
  - exact (inv_ref σ HI).
  - exact (inv_ref_inj σ HI).
  - intros r room' u. rewrite lookup_insert. case_decide as Hr.
    + subst r. intros [= <-]. simpl. by apply (inv_users_ref σ HI rid).
    + apply (inv_users_ref σ HI).
  - intros r room'. rewrite lookup_insert. case_decide.
    + intros [= <-]. simpl. apply store_message_length.
    + apply (inv_history σ HI).
Qed.

Lemma Inv_disconnected σ sid uid :
  Inv σ →
  Inv (mkState (rooms σ) (delete uid (userSockets σ)) (delete sid (socketUsers σ))
         (delete sid (sockets σ)) (next_ref σ)).
Proof.
  intros HI. split; simpl.
  - intros c sk Hc. apply lookup_delete_Some in Hc as [_ Hc]. by apply (inv_ids σ HI _ sk).
  - intros c sk Hc. apply lookup_delete_Some in Hc as [_ Hc]. exact (inv_rooms σ HI c sk Hc).
  - intros c sk r room Hc. apply lookup_delete_Some in Hc as [_ Hc].
    exact (inv_member σ HI c sk r room Hc).
  - intros c sk Hc. apply lookup_delete_Some in Hc as [_ Hc]. exact (inv_ref σ HI c sk Hc).
  - intros c1 c2 sk1 sk2 H1 H2. apply lookup_delete_Some in H1 as [_ H1].
    apply lookup_delete_Some in H2 as [_ H2]. exact (inv_ref_inj σ HI c1 c2 sk1 sk2 H1 H2).
  - exact (inv_users_ref σ HI).
  - exact (inv_history σ HI).
Qed.

Lemma Inv_join_room σ sid sk roomId :
  Inv σ → sockets σ !! sid = Some sk → Inv (join_room sid (s_user sk) roomId σ).1.
Proof.
  intros HI Hsk.
  destruct (rooms_get roomId σ) as [[rid room]|] eqn:Hget.
  2:{ by rewrite (join_room_not_found _ _ _ _ Hget). }
  destruct roomId; simpl in Hget; try done.
  destruct (rooms σ !! s) as [room'|] eqn:Hroom; simplify_eq/=.
  pose proof (join_room_state σ sid sk rid room HI Hsk Hroom) as (Hss & Hrs & _ & _ & Hnext).
  simpl in Hss, Hrs, Hnext.
  set (σ' := (join_room sid (s_user sk) (JStr rid) σ).1) in *.
  assert (∀ c skc, sockets σ' !! c = Some skc →
            ∃ skc0, sockets σ !! c = Some skc0 ∧ s_user skc = s_user skc0
                    ∧ (c = sid → s_rooms skc = [sid; rid])
                    ∧ (c ≠ sid → skc = skc0)) as Hold.
  { intros c skc. rewrite Hss, lookup_insert. case_decide as Hc.
    - subst c. intros [= <-]. exists sk. done.
    - intros Hc'. exists skc. done. }
  split.
  - intros c skc Hc. destruct (Hold _ _ Hc) as (skc0 & Hc0 & _).
    rewrite Hrs. by rewrite (inv_ids σ HI _ _ Hc0).
  - intros c skc Hc. destruct (Hold _ _ Hc) as (skc0 & Hc0 & _ & Heq & Hne).
    destruct (decide (c = sid)) as [-> | Hcs].
    + right. exists rid. split; [auto |]. rewrite Hrs, Hroom. eauto.
    + rewrite (Hne Hcs).
      destruct (inv_rooms σ HI _ _ Hc0) as [? | (r & ? & [room' Hr])]; [by left | right].
      exists r. split; [done |]. rewrite Hrs, Hr. eauto.
  - intros c skc r room'' Hc. rewrite Hrs.
    destruct (rooms σ !! r) as [room'|] eqn:Hr; [| done]. intros [= <-].
    destruct (Hold _ _ Hc) as (skc0 & Hc0 & Hu & Heq & Hne).
    unfold joined_users. simpl.
    destruct (decide (c = sid)) as [-> | Hcs].
    + rewrite (Heq eq_refl). rewrite Hsk in Hc0. injection Hc0 as <-. rewrite Hu.
      case_bool_decide as Hrr.
      * subst r. rewrite has_app. split; [intros _; set_solver |]. intros _. right.
        apply has_true. exists (s_user sk). split; [by apply list_elem_of_singleton | done].
      * rewrite has_delete_self. split; [done |].
        rewrite !elem_of_cons, elem_of_nil. intros [-> | [-> | []]]; [| done].
        rewrite (inv_ids σ HI _ _ Hsk) in Hr. done.
    + rewrite (Hne Hcs). rewrite <- (inv_member σ HI _ _ _ _ Hc0 Hr).
      assert (u_ref (s_user skc0) ≠ u_ref (s_user sk)) as Hrefs.
      { intros Href. apply Hcs. by apply (inv_ref_inj σ HI _ _ _ _ Hc0 Hsk). }
      case_bool_decide.
      * rewrite has_app, has_delete. rewrite (has_true _ [s_user sk]).
        split; [| tauto]. intros [[? _] | (v & Hv & Href)]; [done |].
        apply list_elem_of_singleton in Hv as ->. congruence.
      * rewrite has_delete. tauto.
  - intros c skc Hc. destruct (Hold _ _ Hc) as (skc0 & Hc0 & -> & _).
    rewrite Hnext. exact (inv_ref σ HI c skc0 Hc0).
  - intros c1 c2 sk1 sk2 H1 H2.
    destruct (Hold _ _ H1) as (sk10 & H10 & -> & _).
    destruct (Hold _ _ H2) as (sk20 & H20 & -> & _).
    exact (inv_ref_inj σ HI c1 c2 sk10 sk20 H10 H20).
  - intros r room'' u. rewrite Hrs, Hnext.
    destruct (rooms σ !! r) as [room'|] eqn:Hr; [| done]. intros [= <-].
    unfold joined_users. simpl. intros Hu.
    assert (u ∈ r_users room' ∨ u = s_user sk) as [Hin | ->].
    { case_bool_decide.
      - apply elem_of_app in Hu as [Hu | Hu]; [left; by eapply elem_of_delete |].
        right. by apply list_elem_of_singleton in Hu.
      - left. by eapply elem_of_delete. }
    + by apply (inv_users_ref σ HI _ _ _ Hr).
    + by apply (inv_ref σ HI _ _ Hsk).
  - intros r room''. rewrite Hrs.
    destruct (rooms σ !! r) as [room'|] eqn:Hr; [| done]. intros [= <-]. simpl.
    exact (inv_history σ HI r room' Hr).
Qed.

(** In every state, closing a socket emits nothing and leaves every
    room as it was: the loop of the listener finds no room to visit. *)
Lemma handle_disconnect σ sid sk :
  sockets σ !! sid = Some sk →
  handle (Disconnect sid) σ
  = Some (Returns (mkState (rooms σ) (delete (u_id (s_user sk)) (userSockets σ))
                     (delete sid (socketUsers σ)) (delete sid (sockets σ)) (next_ref σ)) []).
Proof.
  intros Hsk. unfold handle. rewrite Hsk. cbn -[disconnect SocketIO.cleanup].
  by rewrite disconnect_cleaned.
Qed.

Lemma Inv_step a σ σ' out :
  Inv σ → handle a σ = Some (Returns σ' out) → Inv σ'.
Proof.
  intros HI. destruct a.
  - simpl. case_bool_decide as Hg; [| done]. destruct Hg. intros [= <- <-].
    by apply Inv_connection.
  - simpl. case_bool_decide as Hg; [| done]. destruct Hg. intros [= <- <-].
    by apply Inv_post_rooms.
  - simpl. destruct (sockets σ !! sid) as [sk|] eqn:Hsk; [| done]. simpl. intros [= <- <-].
    by apply Inv_join_room.
  - simpl. destruct (sockets σ !! sid) as [sk|] eqn:Hsk; [| done]. simpl. by intros [= <- <-].
  - simpl. destruct (sockets σ !! sid) as [sk|] eqn:Hsk; [| done]. simpl. intros [= Hsend].
    apply send_message_returns in Hsend
      as [[-> _] | (rid & room & body & _ & Hroom & _ & -> & _)]; [done |].
    by apply Inv_posted.
  - simpl. destruct (sockets σ !! sid) as [sk|] eqn:Hsk; [| done]. simpl. intros [= Htyping].
    by apply typing_returns in Htyping as ->.
  - destruct (sockets σ !! sid) as [sk|] eqn:Hsk.
    + rewrite (handle_disconnect _ _ _ Hsk). intros [= <- <-]. by apply Inv_disconnected.
    + simpl. by rewrite Hsk.
Qed.

Lemma reachable_Inv σ : reachable σ → Inv σ.
Proof. induction 1; eauto using Inv_init, Inv_step. Qed.

(** ** Posting *)

Lemma run_reachable acts σ σ' out :
  reachable σ → run acts σ = Some (σ', out) → reachable σ'.
Proof.
  revert σ out. induction acts as [|a acts IH]; intros σ out Hr; simpl.
  - by intros [= <- <-].
  - destruct (handle a σ) as [[|σ1 out1]|] eqn:Ha; try done.
    destruct (run acts σ1) as [[σ2 out2]|] eqn:Hrun; [| done].
    intros [= <- <-]. eapply IH; [| done]. by eapply reachable_step.
Qed.

Lemma connected_member_in_room σ c rid :
  Inv σ → is_Some (rooms σ !! rid) →
  c ∈ SocketIO.in_room rid σ ↔ connected_member c rid σ = true.
Proof.
  intros HI [room Hroom]. rewrite elem_of_in_room. unfold connected_member, is_member.
  rewrite (users_of_lookup _ _ _ Hroom).
  destruct (sockets σ !! c) as [sk|] eqn:Hc.
  - rewrite (inv_member σ HI _ _ _ _ Hc Hroom). naive_solver.
  - naive_solver.
Qed.

Lemma connected_member_inv σ c rid :
  connected_member c rid σ = true →
  ∃ sk room, sockets σ !! c = Some sk ∧ rooms σ !! rid = Some room
             ∧ JsSet.has (s_user sk) (r_users room) = true.
Proof.
  unfold connected_member, is_member, users_of.
  destruct (sockets σ !! c) as [sk|]; [| done].
  destruct (rooms σ !! rid) as [room|]; [| done]. simpl. eauto.
Qed.

(** An accepted post, as a step of the server. *)
Lemma handle_post σ rid p sk room :
  sockets σ !! p_sid p = Some sk → rooms σ !! rid = Some room →
  JsSet.has (s_user sk) (r_users room) = true →
  let m := stamp (s_user sk) (p_body p) (p_now p) (p_rnd p) (p_ts p) in
  handle (post_action rid p) σ
  = Some (Returns (posted rid room m σ)
            (SocketIO.io_to_emit rid (EvMessage m) (posted rid room m σ))).
Proof.
  intros Hsk Hroom Hmem. unfold post_action. cbn [handle]. rewrite Hsk.
  cbn -[send_message]. f_equal.
  by apply send_message_accepted; [apply destructure_payload | |].
Qed.

Lemma received_post σ rid room m c :
  Inv σ → rooms σ !! rid = Some room →
  received c (SocketIO.io_to_emit rid (EvMessage m) (posted rid room m σ))
  = if connected_member c rid σ then [EvMessage m] else [].
Proof.
  intros HI Hroom. rewrite received_io_to_emit.
  destruct (connected_member c rid σ) eqn:Hm.
  - rewrite bool_decide_eq_true_2; [done |].
    change (c ∈ SocketIO.in_room rid σ). by apply connected_member_in_room.
  - rewrite bool_decide_eq_false_2; [done |].
    change (c ∉ SocketIO.in_room rid σ). rewrite connected_member_in_room by eauto.
    by rewrite Hm.
Qed.

Lemma connected_member_posted σ rid room m c r :
  rooms σ !! rid = Some room →
  connected_member c r (posted rid room m σ) = connected_member c r σ.
Proof.
  intros Hroom. unfold connected_member, is_member. simpl.
  destruct (sockets σ !! c); [| done]. by rewrite (posted_users _ _ _ _ _ Hroom).
Qed.

Lemma stamped_posted σ rid room m p : stamped (posted rid room m σ) p = stamped σ p.
Proof. reflexivity. Qed.

Lemma slice_last_app_r {A} (n : nat) (l k : list A) :
  n ≤ length k → slice_last n (l ++ k) = slice_last n k.
Proof.
  intros Hn. unfold slice_last. rewrite length_app.
  replace (length l + length k - n) with (length l + (length k - n)) by lia.
  by rewrite drop_app_add.
Qed.

(** C3. Two posts accepted back to back for a room, in any reachable
    state: each is delivered, exactly once, to the connections that are
    members of the room when it is accepted (the connected sockets whose
    user object is in the [users] of the room) and to nobody else, so
    the receivers are the members, the sender among them; the first post
    does not change who is a member, and every member receives the two
    messages in the order in which they were accepted. *)
Theorem broadcast_consistency σ rid p1 p2 :
  reachable σ →
  connected_member (p_sid p1) rid σ = true →
  connected_member (p_sid p2) rid σ = true →
  ∃ σ1 σ2 out1 out2 m1 m2,
    stamped σ p1 = Some m1 ∧ stamped σ p2 = Some m2
    ∧ handle (post_action rid p1) σ = Some (Returns σ1 out1)
    ∧ handle (post_action rid p2) σ1 = Some (Returns σ2 out2)
    ∧ (∀ c, received c out1 = if connected_member c rid σ then [EvMessage m1] else [])
    ∧ (∀ c, received c out2 = if connected_member c rid σ1 then [EvMessage m2] else [])
    ∧ (∀ c, connected_member c rid σ1 = connected_member c rid σ)
    ∧ received (p_sid p1) out1 = [EvMessage m1]
    ∧ received (p_sid p2) out2 = [EvMessage m2]
    ∧ (∀ c, received c (out1 ++ out2)
            = if connected_member c rid σ then [EvMessage m1; EvMessage m2] else []).
Proof.
  intros Hreach Hm1 Hm2. pose proof (reachable_Inv _ Hreach) as HI.
  destruct (connected_member_inv _ _ _ Hm1) as (sk1 & room & Hsk1 & Hroom & Hhas1).
  destruct (connected_member_inv _ _ _ Hm2) as (sk2 & room2 & Hsk2 & Hroom2 & Hhas2).
  rewrite Hroom in Hroom2. injection Hroom2 as <-.
  set (m1 := stamp (s_user sk1) (p_body p1) (p_now p1) (p_rnd p1) (p_ts p1)).
  set (m2 := stamp (s_user sk2) (p_body p2) (p_now p2) (p_rnd p2) (p_ts p2)).
  set (σ1 := posted rid room m1 σ).
  set (room1 := mkRoom (r_name room) (store_message m1 (r_messages room)) (r_users room)).
  assert (rooms σ1 !! rid = Some room1) as Hroom1 by apply lookup_insert_eq.
  assert (Inv σ1) as HI1 by by apply Inv_posted.
  assert (∀ c, connected_member c rid σ1 = connected_member c rid σ) as Hsame.
  { intros c. by apply connected_member_posted. }
  assert (∀ c, received c (SocketIO.io_to_emit rid (EvMessage m1) σ1)
               = if connected_member c rid σ then [EvMessage m1] else []) as Hr1.
  { intros c. by apply received_post. }
  assert (∀ c, received c (SocketIO.io_to_emit rid (EvMessage m2) (posted rid room1 m2 σ1))
               = if connected_member c rid σ1 then [EvMessage m2] else []) as Hr2.
  { intros c. by apply received_post. }
  eexists σ1, _, _, _, m1, m2.
  split. { unfold stamped. by rewrite Hsk1. }
  split. { unfold stamped. by rewrite Hsk2. }
  split. { by apply handle_post. }
  split. { by apply (handle_post σ1 rid p2 sk2 room1). }
  split; [done |]. split; [done |]. split; [done |].
  split. { by rewrite Hr1, Hm1. }
  split. { by rewrite Hr2, Hsame, Hm2. }
  intros c. rewrite received_app, Hr1, Hr2, Hsame. by destruct (connected_member c rid σ).
Qed.

Lemma messages_of_bound σ rid : Inv σ → length (messages_of rid σ) ≤ 100.
Proof.
  intros HI. unfold messages_of. destruct (rooms σ !! rid) as [room|] eqn:Hroom; simpl.
  - exact (inv_history σ HI rid room Hroom).
  - lia.
Qed.

Lemma run_posts σ rid ps :
  Inv σ →
  Forall (λ p, connected_member (p_sid p) rid σ = true) ps →
  ∃ σ' out,
    run (post_action rid <$> ps) σ = Some (σ', out)
    ∧ Inv σ'
    ∧ length (omap (stamped σ) ps) = length ps
    ∧ messages_of rid σ' = slice_last 100 (messages_of rid σ ++ omap (stamped σ) ps).
Proof.
  intros HI Hps. revert σ HI Hps. induction ps as [|p ps IH]; intros σ HI Hps.
  - exists σ, []. simpl. rewrite app_nil_r.
    split; [done |]. split; [done |]. split; [done |].
    symmetry. by apply slice_last_all, messages_of_bound.
  - apply Forall_cons in Hps as [Hp Hps].
    destruct (connected_member_inv _ _ _ Hp) as (sk & room & Hsk & Hroom & Hhas).
    set (m := stamp (s_user sk) (p_body p) (p_now p) (p_rnd p) (p_ts p)).
    destruct (IH (posted rid room m σ)) as (σ' & out & Hrun & HI' & Hlen & Hmsgs).
    { by apply Inv_posted. }
    { eapply Forall_impl; [exact Hps |]. intros q Hq. simpl in Hq.
      by rewrite connected_member_posted. }
    exists σ', (SocketIO.io_to_emit rid (EvMessage m) (posted rid room m σ) ++ out).
    split.
    { rewrite fmap_cons. cbn [run]. rewrite (handle_post σ rid p sk room Hsk Hroom Hhas).
      fold m. by rewrite Hrun. }
    split; [done |].
    assert (omap (stamped σ) (p :: ps) = m :: omap (stamped σ) ps) as ->.
    { cbn [omap list_omap]. unfold stamped at 1. by rewrite Hsk. }
    split. { simpl. f_equal. exact Hlen. }
    rewrite Hmsgs. change (omap (stamped (posted rid room m σ)) ps) with (omap (stamped σ) ps).
    rewrite posted_messages, store_message_slice, slice_last_app.
    rewrite (messages_of_lookup _ _ _ Hroom). by rewrite <- app_assoc.
Qed.

(** C2. After any sequence of accepted posts to a room, the history of
    every room has at most 100 entries; the history of the room is the
    last 100 of its old history followed by the stamped messages in the
    order of acceptance, so after more than 100 posts it is exactly the
    last 100 posted messages, in order. *)
Theorem history_bound σ rid ps :
  reachable σ →
  Forall (λ p, connected_member (p_sid p) rid σ = true) ps →
  ∃ σ' out,
    run (post_action rid <$> ps) σ = Some (σ', out)
    ∧ (∀ r, length (messages_of r σ') ≤ 100)
    ∧ length (omap (stamped σ) ps) = length ps
    ∧ messages_of rid σ' = slice_last 100 (messages_of rid σ ++ omap (stamped σ) ps)
    ∧ (100 < length ps → messages_of rid σ' = slice_last 100 (omap (stamped σ) ps)).
Proof.
  intros Hreach Hps.
  destruct (run_posts σ rid ps (reachable_Inv _ Hreach) Hps)
    as (σ' & out & Hrun & HI' & Hlen & Hmsgs).
  exists σ', out. split; [done |]. split; [intros r; by apply messages_of_bound |].
  split; [done |]. split; [done |].
  intros Hn. rewrite Hmsgs. apply slice_last_app_r. lia.
Qed.

(** ** One room at a time *)

Lemma handle_join σ sid sk roomId :
  sockets σ !! sid = Some sk →
  handle (JoinRoom sid roomId) σ
  = Some (Returns (join_room sid (s_user sk) roomId σ).1 (join_room sid (s_user sk) roomId σ).2).
Proof. intros Hsk. cbn [handle]. by rewrite Hsk. Qed.

Lemma track_step sid a σ σ' out cur :
  Inv σ → agrees sid σ cur → handle a σ = Some (Returns σ' out) →
  agrees sid σ' (track sid a σ cur).
Proof.
  intros HI Hag. destruct a as [c uid name email picture | now rnd name | c roomId | c roomId
                                | c data now rnd ts | c data | c ].
  - simpl. case_bool_decide as Hg; [| done]. intros [= <- <-] sk'. simpl.
    rewrite lookup_insert. case_decide as Hc.
    + subst c. rewrite bool_decide_eq_true_2 by done. by intros [= <-].
    + rewrite bool_decide_eq_false_2 by done. apply Hag.
  - simpl. case_bool_decide; [| done]. intros [= <- <-] sk'.
    unfold post_rooms. case_bool_decide; apply Hag.
  - destruct (sockets σ !! c) as [sk|] eqn:Hsk; [| simpl; by rewrite Hsk].
    rewrite (handle_join _ _ _ _ Hsk). intros [= <- <-] sk'.
    destruct (rooms_get roomId σ) as [[rid room]|] eqn:Hget.
    + destruct roomId; simpl in Hget; try done.
      destruct (rooms σ !! s) as [room'|] eqn:Hroom; simplify_eq/=.
      pose proof (join_room_state σ c sk rid room HI Hsk Hroom) as (Hss & _).
      simpl in Hss. rewrite Hss, lookup_insert. case_decide as Hc.
      * subst c. rewrite bool_decide_eq_true_2 by (rewrite Hroom; eauto). by intros [= <-].
      * rewrite bool_decide_eq_false_2 by naive_solver. apply Hag.
    + rewrite (join_room_not_found _ _ _ _ Hget). simpl.
      destruct roomId; try apply Hag. simpl in Hget.
      destruct (rooms σ !! s) as [room'|] eqn:Hroom; [done |].
      rewrite bool_decide_eq_false_2; [apply Hag |]. intros [_ [? ?]]. done.
  - simpl. destruct (sockets σ !! c) as [sk|] eqn:Hsk; [| done]. simpl.
    intros [= <- <-]. apply Hag.
  - simpl. destruct (sockets σ !! c) as [sk|] eqn:Hsk; [| done]. simpl. intros [= Hsend].
    apply send_message_returns in Hsend
      as [[-> _] | (rid & room & body & _ & Hroom & _ & -> & _)]; apply Hag.
  - simpl. destruct (sockets σ !! c) as [sk|] eqn:Hsk; [| done]. simpl. intros [= Htyping].
    apply typing_returns in Htyping as ->. apply Hag.
  - destruct (sockets σ !! c) as [sk|] eqn:Hsk; [| simpl; by rewrite Hsk].
    rewrite (handle_disconnect _ _ _ Hsk). intros [= <- <-] sk'. simpl.
    rewrite lookup_delete. case_decide as Hc; [done |].
    rewrite bool_decide_eq_false_2 by done. apply Hag.
Qed.

Lemma last_joined_agrees sid acts σ0 cur0 σ out :
  Inv σ0 → agrees sid σ0 cur0 → run acts σ0 = Some (σ, out) →
  Inv σ ∧ agrees sid σ (last_joined sid acts σ0 cur0).
Proof.
  revert σ0 cur0 out. induction acts as [|a acts IH]; intros σ0 cur0 out HI Hag; simpl.
  - by intros [= <- <-].
  - destruct (handle a σ0) as [[|σ1 out1]|] eqn:Ha; try done.
    destruct (run acts σ1) as [[σ2 out2]|] eqn:Hrun; [| done]. intros [= <- <-].
    eapply IH; [by eapply Inv_step | by eapply track_step | done].
Qed.

(** C1 (amended). After any sequence of actions of the server, a
    connected socket is a member of at most one room, in [room.users]
    and in [socket.rooms] alike: exactly the room of its most recent
    join that found its room, none before the first one.  A join leaves
    the previous room before it enters the new one; a [leave_room]
    event changes nothing. *)
Theorem at_most_one_room acts σ out sid sk :
  run acts init = Some (σ, out) →
  sockets σ !! sid = Some sk →
  chat_rooms sid σ = option_list (last_joined sid acts init None)
  ∧ (∀ rid, is_member (s_user sk) rid σ = true ↔ last_joined sid acts init None = Some rid)
  ∧ (∀ r1 r2, is_member (s_user sk) r1 σ = true → is_member (s_user sk) r2 σ = true → r1 = r2).
Proof.
  intros Hrun Hsk.
  destruct (last_joined_agrees sid acts init None σ out Inv_init) as [HI Hag]; [| done |].
  { intros sk0. simpl. by rewrite lookup_empty. }
  pose proof (Hag _ Hsk) as Hrs.
  assert (∀ rid, is_member (s_user sk) rid σ = true
                 ↔ last_joined sid acts init None = Some rid) as Hmem.
  { intros rid. unfold is_member, users_of.
    destruct (rooms σ !! rid) as [room|] eqn:Hroom; simpl.
    - rewrite (inv_member σ HI _ _ _ _ Hsk Hroom), Hrs.
      rewrite elem_of_cons. split.
      + intros [-> | Hin]; [by rewrite (inv_ids σ HI _ _ Hsk) in Hroom |].
        destruct (last_joined sid acts init None); simpl in Hin.
        * by apply list_elem_of_singleton in Hin as ->.
        * by apply elem_of_nil in Hin.
      + intros ->. right. simpl. by apply list_elem_of_singleton.
    - split; [done |]. intros Hlast. rewrite Hlast in Hrs. simpl in Hrs.
      destruct (inv_rooms σ HI _ _ Hsk) as [Heq | (r & Heq & [room Hr])]; rewrite Heq in Hrs.
      + done.
      + injection Hrs as ->. congruence. }
  split; [| split; [done |]].
  - unfold chat_rooms. rewrite (socket_rooms_lookup _ _ _ Hsk), Hrs.
    rewrite filter_cons_False by naive_solver.
    destruct (last_joined sid acts init None) as [r|] eqn:Hlast; simpl; [| done].
    rewrite filter_cons_True; [done |]. intros ->.
    pose proof (proj2 (Hmem sid) eq_refl) as Hself. unfold is_member, users_of in Hself.
    by rewrite (inv_ids σ HI _ _ Hsk) in Hself.
  - intros r1 r2 H1 H2. apply Hmem in H1, H2. congruence.
Qed.

(** ** Joining and posting: what the server does not check *)

Lemma final_reachable acts :
  bool_decide (is_Some (run acts init)) = true → reachable (final acts).
Proof.
  intros H. apply bool_decide_eq_true in H as [[σ out] Hrun].
  unfold final. rewrite Hrun. simpl.
  eapply run_reachable; [apply reachable_init | done].
Qed.

Lemma bool_ext (b1 b2 : bool) : (b1 = true ↔ b2 = true) → b1 = b2.
Proof. destruct b1, b2; naive_solver. Qed.

(** C6 (amended). The [room_users] snapshot a joining socket receives is
    [Array.from(room.users)] read after the joiner was added: the user
    objects of the others that were in the room's [users], in their
    order, followed by the joiner's own; so the first socket to join an
    empty room receives a snapshot that holds exactly itself. *)
Theorem join_snapshot_includes_joiner σ sid sk rid room :
  reachable σ → sockets σ !! sid = Some sk → rooms σ !! rid = Some room →
  ∃ σ' out,
    handle (JoinRoom sid (JStr rid)) σ = Some (Returns σ' out)
    ∧ received sid out
      = [EvRoomUsers rid (users_of rid σ'); EvMessageHistory rid (r_messages room)]
    ∧ users_of rid σ' = JsSet.delete (s_user sk) (r_users room) ++ [s_user sk]
    ∧ (r_users room = [] → users_of rid σ' = [s_user sk]).
Proof.
  intros Hreach Hsk Hroom. pose proof (reachable_Inv _ Hreach) as HI.
  exists (join_room sid (s_user sk) (JStr rid) σ).1, (join_room sid (s_user sk) (JStr rid) σ).2.
  pose proof (join_room_state σ sid sk rid room HI Hsk Hroom) as (_ & Hrs & _).
  simpl in Hrs.
  assert (users_of rid (join_room sid (s_user sk) (JStr rid) σ).1
          = JsSet.delete (s_user sk) (r_users room) ++ [s_user sk]) as Hus.
  { unfold users_of. rewrite Hrs, Hroom. simpl. by rewrite bool_decide_eq_true_2. }
  split; [by apply handle_join |].
  split. { rewrite (join_room_received σ sid sk rid room sid HI Hsk Hroom).
           rewrite bool_decide_eq_true_2 by done. by rewrite Hus. }
  split; [done |]. intros Hempty. rewrite Hus, Hempty. done.
Qed.

(** C4 (amended). When a socket that is in room [rid] joins [rid] again,
    the members of the room are the same set afterwards (the joiner
    moves to the end of [users]); the handler first leaves and then
    re-enters the room, so every other connected member receives one
    [user_left] followed by one [user_joined], sockets outside the room
    receive nothing, and the joiner receives [room_users] and
    [message_history] as on any join. *)
Theorem rejoin_same_room σ sid sk rid room :
  reachable σ → sockets σ !! sid = Some sk → rooms σ !! rid = Some room →
  JsSet.has (s_user sk) (r_users room) = true →
  ∃ σ' out,
    handle (JoinRoom sid (JStr rid)) σ = Some (Returns σ' out)
    ∧ users_of rid σ' = JsSet.delete (s_user sk) (r_users room) ++ [s_user sk]
    ∧ (∀ v, JsSet.has v (users_of rid σ') = JsSet.has v (r_users room))
    ∧ (∀ c, connected_member c rid σ' = connected_member c rid σ)
    ∧ received sid out
      = [EvRoomUsers rid (JsSet.delete (s_user sk) (r_users room) ++ [s_user sk]);
         EvMessageHistory rid (r_messages room)]
    ∧ (∀ c, c ≠ sid →
         received c out
         = if connected_member c rid σ
           then [EvUserLeft (s_user sk) (JsSet.delete (s_user sk) (r_users room));
                 EvUserJoined (s_user sk)
                   (JsSet.delete (s_user sk) (r_users room) ++ [s_user sk])]
           else []).
Proof.
  intros Hreach Hsk Hroom Hmem. pose proof (reachable_Inv _ Hreach) as HI.
  exists (join_room sid (s_user sk) (JStr rid) σ).1, (join_room sid (s_user sk) (JStr rid) σ).2.
  pose proof (join_room_state σ sid sk rid room HI Hsk Hroom) as (Hss & Hrs & _).
  simpl in Hss, Hrs.
  assert (users_of rid (join_room sid (s_user sk) (JStr rid) σ).1
          = JsSet.delete (s_user sk) (r_users room) ++ [s_user sk]) as Hus.
  { unfold users_of. rewrite Hrs, Hroom. simpl. by rewrite bool_decide_eq_true_2. }
  assert (∀ v, JsSet.has v (users_of rid (join_room sid (s_user sk) (JStr rid) σ).1)
               = JsSet.has v (r_users room)) as Hhas.
  { intros v. rewrite Hus. apply bool_ext. rewrite has_app, has_delete.
    rewrite (has_true v [s_user sk]). split.
    - intros [[? _] | (w & Hw & Href)]; [done |].
      apply list_elem_of_singleton in Hw as ->.
      apply has_true in Hmem as (w & Hw & Href'). apply has_true. exists w.
      split; [done | congruence].
    - intros Hv. destruct (decide (u_ref v = u_ref (s_user sk))) as [Href | Hne].
      + right. exists (s_user sk). split; [by apply list_elem_of_singleton | done].
      + by left. }
  assert (s_rooms sk = [sid; rid]) as Hrooms.
  { pose proof (proj1 (inv_member σ HI _ _ _ _ Hsk Hroom) Hmem) as Hin.
    destruct (inv_rooms σ HI _ _ Hsk) as [Heq | (r & Heq & _)]; rewrite Heq in Hin |- *.
    - apply list_elem_of_singleton in Hin as ->.
      by rewrite (inv_ids σ HI _ _ Hsk) in Hroom.
    - rewrite !elem_of_cons, elem_of_nil in Hin. destruct Hin as [-> | [-> | []]]; [| done].
      by rewrite (inv_ids σ HI _ _ Hsk) in Hroom. }
  split; [by apply handle_join |]. split; [done |]. split; [done |].
  split.
  { intros c. unfold connected_member, is_member. rewrite Hss, lookup_insert.
    case_decide as Hc.
    - subst c. rewrite Hsk. simpl. by rewrite Hhas, (users_of_lookup _ _ _ Hroom).
    - destruct (sockets σ !! c); [| done]. by rewrite Hhas, (users_of_lookup _ _ _ Hroom). }
  split.
  { rewrite (join_room_received σ sid sk rid room sid HI Hsk Hroom).
    by rewrite bool_decide_eq_true_2 by done. }
  intros c Hc. rewrite (join_room_received σ sid sk rid room c HI Hsk Hroom).
  rewrite bool_decide_eq_false_2 by done.
  unfold left_notices, chat_rooms. rewrite (socket_rooms_lookup _ _ _ Hsk), Hrooms.
  rewrite filter_cons_False by naive_solver.
  rewrite filter_cons_True by (intros ->; by rewrite (inv_ids σ HI _ _ Hsk) in Hroom).
  rewrite filter_nil. simpl. rewrite app_nil_r, (users_of_lookup _ _ _ Hroom).
  destruct (connected_member c rid σ) eqn:Hcm.
  - rewrite bool_decide_eq_true_2; [done |]. by apply connected_member_in_room.
  - rewrite bool_decide_eq_false_2; [done |].
    rewrite connected_member_in_room by eauto. by rewrite Hcm.
Qed.

(** C5 (amended). The server does not look at the length of the body: a
    post of a member whose body trims to the empty string is accepted
    like any other.  The message with the empty body is appended to the
    history and broadcast to the members of the room, the sender
    included, and no [error] event is emitted. *)
Theorem empty_message_accepted σ rid p sk room :
  reachable σ → sockets σ !! p_sid p = Some sk → rooms σ !! rid = Some room →
  JsSet.has (s_user sk) (r_users room) = true →
  JsString.trim (p_body p) = [] →
  ∃ σ' out m,
    handle (post_action rid p) σ = Some (Returns σ' out)
    ∧ m_message m = []
    ∧ messages_of rid σ' = store_message m (r_messages room)
    ∧ last (messages_of rid σ') = Some m
    ∧ (∀ c, received c out = if connected_member c rid σ then [EvMessage m] else [])
    ∧ received (p_sid p) out = [EvMessage m]
    ∧ (∀ c detail, (c, EvError detail) ∉ out).
Proof.
  intros Hreach Hsk Hroom Hmem Hempty. pose proof (reachable_Inv _ Hreach) as HI.
  set (m := stamp (s_user sk) (p_body p) (p_now p) (p_rnd p) (p_ts p)).
  exists (posted rid room m σ), (SocketIO.io_to_emit rid (EvMessage m) (posted rid room m σ)), m.
  split; [by apply handle_post |]. split; [done |].
  split; [apply posted_messages |].
  split. { rewrite posted_messages. apply store_message_last. }
  assert (∀ c, received c (SocketIO.io_to_emit rid (EvMessage m) (posted rid room m σ))
               = if connected_member c rid σ then [EvMessage m] else []) as Hrec.
  { intros c. by apply received_post. }
  split; [done |]. split.
  { rewrite Hrec. unfold connected_member, is_member.
    by rewrite Hsk, (users_of_lookup _ _ _ Hroom), Hmem. }
  intros c detail Hin. apply list_elem_of_fmap in Hin as (c' & [= _ ?] & _).
Qed.

Section Scenario.
Import Demo.

(** ** The scenario *)

(** C2 (witness). 101 posts of Alice to [general], where she sits with Bob. *)
Lemma history_bound_witness :
  ∃ σ' out,
    run (post_action general <$> posts) together = Some (σ', out)
    ∧ (∀ r, length (messages_of r σ') ≤ 100)
    ∧ length (omap (stamped together) posts) = length posts
    ∧ messages_of general σ'
      = slice_last 100 (messages_of general together ++ omap (stamped together) posts)
    ∧ (100 < length posts →
       messages_of general σ' = slice_last 100 (omap (stamped together) posts)).
Proof.
  apply (history_bound together general posts).
  - apply final_reachable. vm_compute. reflexivity.
  - eapply bool_decide_eq_true_1. vm_compute. reflexivity.
Defined.

(** C3 (witness). Alice, then Bob, post to [general], where both are. *)
Lemma broadcast_consistency_witness :
  ∃ σ1 σ2 out1 out2 m1 m2,
    stamped together hello = Some m1 ∧ stamped together hi = Some m2
    ∧ handle (post_action general hello) together = Some (Returns σ1 out1)
    ∧ handle (post_action general hi) σ1 = Some (Returns σ2 out2)
    ∧ (∀ c, received c out1
            = if connected_member c general together then [EvMessage m1] else [])
    ∧ (∀ c, received c out2 = if connected_member c general σ1 then [EvMessage m2] else [])
    ∧ (∀ c, connected_member c general σ1 = connected_member c general together)
    ∧ received (p_sid hello) out1 = [EvMessage m1]
    ∧ received (p_sid hi) out2 = [EvMessage m2]
    ∧ (∀ c, received c (out1 ++ out2)
            = if connected_member c general together
              then [EvMessage m1; EvMessage m2] else []).
Proof.
  apply (broadcast_consistency together general hello hi).
  - apply final_reachable. vm_compute. reflexivity.
  - vm_compute. reflexivity.
  - vm_compute. reflexivity.
Defined.

(** C8 (witness). Bob posts to [general], which he has not joined. *)
Lemma not_a_member_rejected_witness :
  ∃ σ' out,
    send_message bob user_bob (payload general (js "hi")) (js "8") (js "s") (js "t") alone
    = Returns σ' out
    ∧ out = [(bob, EvError (if rooms_get (JStr general) alone is Some _
                            then js "You are not in this room"
                            else js "Room not found"))]
    ∧ σ' = alone
    ∧ (∀ r, messages_of r σ' = messages_of r alone)
    ∧ (∀ e : Emit, e ∈ out → e.1 = bob)
    ∧ (∀ c m, (c, EvMessage m) ∉ out).
Proof.
  apply (not_a_member_rejected alone bob user_bob (payload general (js "hi"))
           (JStr general) (JStr (js "hi"))).
  - reflexivity.
  - vm_compute. reflexivity.
Defined.

(** C9 (witness). Alice posts a body with white space around it. *)
Lemma stored_body_is_trimmed_witness :
  ∃ σ' out m,
    send_message alice user_alice (payload general (js "  hello ")) (js "7") (js "r") (js "t")
      alone = Returns σ' out
    ∧ last (messages_of general σ') = Some m
    ∧ (∀ e : Emit, e ∈ out → e.2 = EvMessage m)
    ∧ m_message m = JsString.trim (js "  hello ")
    ∧ ∃ pre post, js "  hello " = pre ++ m_message m ++ post
        ∧ JsString.all_white_space pre ∧ JsString.all_white_space post
        ∧ (∀ c, head (m_message m) = Some c → JsString.is_white_space c = false)
        ∧ (∀ c, last (m_message m) = Some c → JsString.is_white_space c = false).
Proof.
  apply (stored_body_is_trimmed alone alice user_alice (payload general (js "  hello "))
           general general_alone (js "  hello ")).
  - reflexivity.
  - vm_compute. reflexivity.
  - vm_compute. reflexivity.
Defined.

(** C10 (witness). Alice, a member of [general], sends a payload without
    a [message] field. *)
Lemma send_message_throws_iff_witness :
  send_message alice user_alice no_message (js "7") (js "r") (js "t") alone = Throws
  ↔ (∃ rid room, JStr general = JStr rid ∧ rooms alone !! rid = Some room
                 ∧ JsSet.has user_alice (r_users room) = true)
    ∧ ∀ body, JUndefined ≠ JStr body.
Proof.
  apply (send_message_throws_iff alone alice user_alice no_message (JStr general) JUndefined).
  reflexivity.
Defined.

(** C1 (witness). Alice joins [general], then [lounge]. *)
Lemma at_most_one_room_witness :
  chat_rooms alice (final hopping) = option_list (last_joined alice hopping init None)
  ∧ (∀ rid, is_member user_alice rid (final hopping) = true
            ↔ last_joined alice hopping init None = Some rid)
  ∧ (∀ r1 r2, is_member user_alice r1 (final hopping) = true →
              is_member user_alice r2 (final hopping) = true → r1 = r2).
Proof.
  apply (at_most_one_room hopping (final hopping) (emitted hopping) alice
           (mkSock user_alice [alice; lounge])).
  - vm_compute. reflexivity.
  - vm_compute. reflexivity.
Defined.

(** C6 (witness). Bob joins [general], where Alice already is. *)
Lemma join_snapshot_includes_joiner_witness :
  ∃ σ' out,
    handle (JoinRoom bob (JStr general)) alone = Some (Returns σ' out)
    ∧ received bob out
      = [EvRoomUsers general (users_of general σ');
         EvMessageHistory general (r_messages general_alone)]
    ∧ users_of general σ' = JsSet.delete user_bob (r_users general_alone) ++ [user_bob]
    ∧ (r_users general_alone = [] → users_of general σ' = [user_bob]).
Proof.
  apply (join_snapshot_includes_joiner alone bob (mkSock user_bob [bob]) general general_alone).
  - apply final_reachable. vm_compute. reflexivity.
  - vm_compute. reflexivity.
  - vm_compute. reflexivity.
Defined.

(** C4 (witness). Alice, alone in [general], joins it again. *)
Lemma rejoin_same_room_witness :
  ∃ σ' out,
    handle (JoinRoom alice (JStr general)) alone = Some (Returns σ' out)
    ∧ users_of general σ' = JsSet.delete user_alice (r_users general_alone) ++ [user_alice]
    ∧ (∀ v, JsSet.has v (users_of general σ') = JsSet.has v (r_users general_alone))
    ∧ (∀ c, connected_member c general σ' = connected_member c general alone)
    ∧ received alice out
      = [EvRoomUsers general
           (JsSet.delete user_alice (r_users general_alone) ++ [user_alice]);
         EvMessageHistory general (r_messages general_alone)]
    ∧ (∀ c, c ≠ alice →
         received c out
         = if connected_member c general alone
           then [EvUserLeft user_alice (JsSet.delete user_alice (r_users general_alone));
                 EvUserJoined user_alice
                   (JsSet.delete user_alice (r_users general_alone) ++ [user_alice])]
           else []).
Proof.
  apply (rejoin_same_room alone alice (mkSock user_alice [alice; general]) general
           general_alone).
  - apply final_reachable. vm_compute. reflexivity.
  - vm_compute. reflexivity.
  - vm_compute. reflexivity.
  - vm_compute. reflexivity.
Defined.

(** C5 (witness). Alice, alone in [general], posts three spaces. *)
Lemma empty_message_accepted_witness :
  ∃ σ' out m,
    handle (post_action general blank) alone = Some (Returns σ' out)
    ∧ m_message m = []
    ∧ messages_of general σ' = store_message m (r_messages general_alone)
    ∧ last (messages_of general σ') = Some m
    ∧ (∀ c, received c out = if connected_member c general alone then [EvMessage m] else [])
    ∧ received (p_sid blank) out = [EvMessage m]
    ∧ (∀ c detail, (c, EvError detail) ∉ out).
Proof.
  apply (empty_message_accepted alone general blank (mkSock user_alice [alice; general])
           general_alone).
  - apply final_reachable. vm_compute. reflexivity.
  - vm_compute. reflexivity.
  - vm_compute. reflexivity.
  - vm_compute. reflexivity.
  - vm_compute. reflexivity.
Defined.

(** The handler throws on a payload without a [message] from a member,
    and on [undefined]; from a socket that is not in the room the same
    payload gets the error of the membership check. *)
Example missing_message_throws :
  send_message alice user_alice no_message (js "7") (js "r") (js "t") alone = Throws
  ∧ send_message alice user_alice JUndefined (js "7") (js "r") (js "t") alone = Throws
  ∧ send_message bob user_bob no_message (js "7") (js "r") (js "t") alone
    = Returns alone [(bob, EvError (js "You are not in this room"))].
Proof. vm_compute. repeat split; reflexivity. Qed.

(** C1 (counterexample). Alice joins [general] and then sends
    [leave_room]: no listener handles it, so she is still a member of
    [general], in [room.users] and in [socket.rooms]. *)
Lemma leave_room_is_ignored :
  run leaving init = Some (final leaving, emitted leaving)
  ∧ is_member user_alice general (final leaving) = true
  ∧ chat_rooms alice (final leaving) = [general]
  ∧ step_out (LeaveRoom alice (JStr general)) alone = []
  ∧ step_state (LeaveRoom alice (JStr general)) alone = alone.
Proof. vm_compute. repeat split; reflexivity. Qed.

(** C8 (counterexample). Bob, who is in no room, posts to a room id that
    does not exist: the error he gets is 'Room not found', not the one
    of the membership check. *)
Lemma unknown_room_is_not_found :
  rooms alone !! nowhere = None
  ∧ in_targeted_room (JStr nowhere) user_bob alone = false
  ∧ handle (SendMessage bob (payload nowhere (js "hi")) (js "8") (js "s") (js "t")) alone
    = Some (Returns alone [(bob, EvError (js "Room not found"))]).
Proof. vm_compute. repeat split; reflexivity. Qed.

(** C4 (counterexample). Bob is in [general] with Alice and joins
    [general] again: Alice receives a [user_left] and a [user_joined]. *)
Lemma rejoin_notifies_others :
  is_member user_bob general together = true
  ∧ chat_rooms bob together = [general]
  ∧ received alice (step_out (JoinRoom bob (JStr general)) together)
    = [EvUserLeft user_bob [user_alice]; EvUserJoined user_bob [user_alice; user_bob]].
Proof. vm_compute. repeat split; reflexivity. Qed.

(** C5 (counterexample). Alice, alone in [general], posts three spaces:
    the message with the empty body is stored and sent back to her, and
    there is no error. *)
Lemma blank_message_is_broadcast :
  JsString.trim (p_body blank) = []
  ∧ step_out (post_action general blank) alone
    = [(alice, EvMessage (mkMessage (js "msg_7_r") user_alice [] (js "t")))]
  ∧ messages_of general (step_state (post_action general blank) alone)
    = [mkMessage (js "msg_7_r") user_alice [] (js "t")].
Proof. vm_compute. repeat split; reflexivity. Qed.

(** C6 (counterexample). Alice is the first to join the empty room
    [general]: the snapshot she receives holds her own user object. *)
Lemma first_joiner_sees_itself :
  users_of general lobby = []
  ∧ received alice (step_out (JoinRoom alice (JStr general)) lobby)
    = [EvRoomUsers general [user_alice]; EvMessageHistory general []].
Proof. vm_compute. repeat split; reflexivity. Qed.

(** C7. Bob is in [general] with Alice and disconnects.  The library has
    emptied [socket.rooms] when the [disconnect] listener runs, so its
    loop body is never entered: nothing is emitted (Alice gets no
    [user_left]) and Bob's user object stays in the [users] of
    [general]; only the entries of [userSockets] and [socketUsers] are
    released.  The same listener run while Bob is still in his rooms,
    and the leave that [join_room] performs when Bob moves to [lounge],
    both remove him from [general] and notify Alice. *)
Theorem disconnect_leaves_member_behind :
  users_of general together = [user_alice; user_bob]
  ∧ chat_rooms bob together = [general]
  ∧ handle (Disconnect bob) together
    = Some (Returns (step_state (Disconnect bob) together) [])
  ∧ users_of general (step_state (Disconnect bob) together) = [user_alice; user_bob]
  ∧ sockets (step_state (Disconnect bob) together) !! bob = None
  ∧ socketUsers (step_state (Disconnect bob) together) !! bob = None
  ∧ userSockets (step_state (Disconnect bob) together) !! u_id user_bob = None
  ∧ received alice (disconnect bob user_bob together).2 = [EvUserLeft user_bob [user_alice]]
  ∧ users_of general (disconnect bob user_bob together).1 = [user_alice]
  ∧ received alice (step_out (JoinRoom bob (JStr lounge)) together)
    = [EvUserLeft user_bob [user_alice]]
  ∧ users_of general (step_state (JoinRoom bob (JStr lounge)) together) = [user_alice].
Proof. vm_compute. repeat split; reflexivity. Qed.

End Scenario.

(** * More of the server *)

(** ** How a step changes the rooms *)

Lemma handle_rooms a σ σ' out rid room' :
  Inv σ → handle a σ = Some (Returns σ' out) → rooms σ' !! rid = Some room' →
  (∃ room, rooms σ !! rid = Some room ∧ r_name room' = r_name room
     ∧ (r_messages room' = r_messages room
        ∨ ∃ sid sk data now rnd ts body,
            a = SendMessage sid data now rnd ts ∧ sockets σ !! sid = Some sk
            ∧ destructure data = Some (JStr rid, JStr body)
            ∧ r_messages room'
              = store_message (stamp (s_user sk) body now rnd ts) (r_messages room)))
  ∨ (rooms σ !! rid = None
     ∧ ∃ now rnd name, a = PostRooms now rnd name ∧ rid = room_id now rnd
         ∧ room' = mkRoom (JsString.trim name) [] [] ∧ JsString.trim name ≠ []).
Proof.
  intros HI. destruct a as [c uid name email picture | now rnd name | c roomId | c roomId
                            | c data now rnd ts | c data | c ].
  - simpl. case_bool_decide; [| done]. intros [= <- <-]. simpl. intros Hr. left. eauto.
  - simpl. case_bool_decide as Hg; [| done]. destruct Hg as [Hfresh _]. intros [= <- <-].
    unfold post_rooms. case_bool_decide as Hlen; [intros Hr; left; eauto |]. simpl.
    rewrite lookup_insert. case_decide as Hid.
    + intros [= <-]. right. split; [by subst |]. exists now, rnd, name.
      split; [done |]. split; [done |]. split; [done |].
      intros Hnil. apply Hlen. by rewrite Hnil.
    + intros Hr. left. eauto.
  - destruct (sockets σ !! c) as [sk|] eqn:Hsk; [| simpl; by rewrite Hsk].
    rewrite (handle_join _ _ _ _ Hsk). intros [= <- <-].
    destruct (rooms_get roomId σ) as [[r room]|] eqn:Hget.
    2:{ rewrite (join_room_not_found _ _ _ _ Hget). simpl. intros Hr. left. eauto. }
    destruct roomId; simpl in Hget; try done.
    destruct (rooms σ !! s) as [room0|] eqn:Hroom; simplify_eq/=.
    pose proof (join_room_state σ c sk r room HI Hsk Hroom) as (_ & Hrs & _).
    simpl in Hrs. rewrite Hrs.
    destruct (rooms σ !! rid) as [room1|] eqn:Hr1; [| done]. intros [= <-].
    left. exists room1. eauto.
  - simpl. destruct (sockets σ !! c) as [sk|]; [| done]. simpl. intros [= <- <-] Hr.
    left. eauto.
  - simpl. destruct (sockets σ !! c) as [sk|] eqn:Hsk; [| done]. simpl. intros [= Hsend].
    apply send_message_returns in Hsend
      as [[-> _] | (r & room & body & Hd & Hroom & _ & -> & _)].
    { intros Hr. left. eauto. }
    simpl. rewrite lookup_insert. case_decide as Hid.
    + subst r. intros [= <-]. left. exists room. split; [done |]. split; [done |].
      right. exists c, sk, data, now, rnd, ts, body. done.
    + intros Hr. left. eauto.
  - simpl. destruct (sockets σ !! c) as [sk|]; [| done]. simpl. intros [= Ht].
    apply typing_returns in Ht as ->. intros Hr. left. eauto.
  - destruct (sockets σ !! c) as [sk|] eqn:Hsk; [| simpl; by rewrite Hsk].
    rewrite (handle_disconnect _ _ _ Hsk). intros [= <- <-]. simpl. intros Hr. left. eauto.
Qed.

Lemma handle_keeps_room a σ σ' out rid room :
  Inv σ → handle a σ = Some (Returns σ' out) → rooms σ !! rid = Some room →
  ∃ room', rooms σ' !! rid = Some room' ∧ r_name room' = r_name room.
Proof.
  intros HI. destruct a as [c uid name email picture | now rnd name | c roomId | c roomId
                            | c data now rnd ts | c data | c ].
  - simpl. case_bool_decide; [| done]. intros [= <- <-]. simpl. eauto.
  - simpl. case_bool_decide as Hg; [| done]. destruct Hg as [Hfresh _]. intros [= <- <-].
    unfold post_rooms. case_bool_decide; [eauto |]. simpl. intros Hr.
    rewrite lookup_insert_ne by congruence. eauto.
  - destruct (sockets σ !! c) as [sk|] eqn:Hsk; [| simpl; by rewrite Hsk].
    rewrite (handle_join _ _ _ _ Hsk). intros [= <- <-].
    destruct (rooms_get roomId σ) as [[r room0]|] eqn:Hget.
    2:{ rewrite (join_room_not_found _ _ _ _ Hget). simpl. eauto. }
    destruct roomId; simpl in Hget; try done.
    destruct (rooms σ !! s) as [room1|] eqn:Hroom; simplify_eq/=.
    pose proof (join_room_state σ c sk r room0 HI Hsk Hroom) as (_ & Hrs & _).
    simpl in Hrs. intros Hr. rewrite Hrs, Hr. simpl. eauto.
  - simpl. destruct (sockets σ !! c) as [sk|]; [| done]. simpl. intros [= <- <-]. eauto.
  - simpl. destruct (sockets σ !! c) as [sk|] eqn:Hsk; [| done]. simpl. intros [= Hsend].
    apply send_message_returns in Hsend
      as [[-> _] | (r & room0 & body & Hd & Hroom & _ & -> & _)]; [eauto |].
    simpl. intros Hr. rewrite lookup_insert. case_decide as Hid; [| eauto].
    subst r. rewrite Hroom in Hr. injection Hr as <-. eauto.
  - simpl. destruct (sockets σ !! c) as [sk|]; [| done]. simpl. intros [= Ht].
    apply typing_returns in Ht as ->. eauto.
  - destruct (sockets σ !! c) as [sk|] eqn:Hsk; [| simpl; by rewrite Hsk].
    rewrite (handle_disconnect _ _ _ Hsk). intros [= <- <-]. simpl. eauto.
Qed.

Lemma run_Inv acts σ σ' out : Inv σ → run acts σ = Some (σ', out) → Inv σ'.
Proof.
  revert σ out. induction acts as [|a acts IH]; intros σ out HI; simpl.
  - by intros [= <- <-].
  - destruct (handle a σ) as [[|σ1 out1]|] eqn:Ha; try done.
    destruct (run acts σ1) as [[σ2 out2]|] eqn:Hrun; [| done].
    intros [= <- <-]. eapply IH; [| done]. by eapply Inv_step.
Qed.

(** X1.  Rooms are permanent: no socket event and no route removes or renames a
    room.  A room present in a reachable state is present, under the same
    name, after any further run of the server (the ids drawn for new rooms
    being fresh). *)
Theorem rooms_are_permanent acts σ σ' out rid room :
  reachable σ → run acts σ = Some (σ', out) → rooms σ !! rid = Some room →
  ∃ room', rooms σ' !! rid = Some room' ∧ r_name room' = r_name room.
Proof.
  intros Hreach. pose proof (reachable_Inv _ Hreach) as HI. clear Hreach.
  revert σ out room HI. induction acts as [|a acts IH]; intros σ out room HI; simpl.
  - intros [= <- <-]. eauto.
  - destruct (handle a σ) as [[|σ1 out1]|] eqn:Ha; try done.
    destruct (run acts σ1) as [[σ2 out2]|] eqn:Hrun; [| done].
    intros [= <- <-] Hr.
    destruct (handle_keeps_room _ _ _ _ _ _ HI Ha Hr) as (room1 & Hr1 & Hn1).
    destruct (IH σ1 out2 room1) as (room2 & Hr2 & Hn2); [by eapply Inv_step | done | done |].
    exists room2. split; [done | congruence].
Qed.

(** ** What is stored *)

Lemma trim_is_trimmed (s : str) : trimmed (JsString.trim s).
Proof. destruct (trim_spec s) as (pre & post & _ & _ & _ & Hh & Hl). by split. Qed.

Lemma elem_of_store_message (m' m : Message) (h : list Message) :
  m' ∈ store_message m h → m' ∈ h ∨ m' = m.
Proof.
  rewrite store_message_slice. unfold slice_last. intros Hin.
  apply (subseteq_drop _ _ _) in Hin. apply elem_of_app in Hin as [? | Hin]; [by left |].
  right. by apply list_elem_of_singleton in Hin.
Qed.

(** X2.  In every reachable state the name of every room is non-empty and has no
    white space at either end: [POST /api/rooms] is the only writer of
    [rooms] keys and it stores [name.trim()] after refusing an empty one. *)
Theorem room_names_are_trimmed σ rid room :
  reachable σ → rooms σ !! rid = Some room →
  r_name room ≠ [] ∧ trimmed (r_name room).
Proof.
  intros Hreach. revert rid room.
  induction Hreach as [|a σ σ' out Hreach IH Ha]; intros rid room.
  - simpl. by rewrite lookup_empty.
  - intros Hr.
    destruct (handle_rooms _ _ _ _ _ _ (reachable_Inv _ Hreach) Ha Hr)
      as [(room0 & Hr0 & Hname & _) | (_ & now & rnd & name & _ & _ & -> & Hne)].
    + rewrite Hname. by apply (IH rid).
    + simpl. split; [done | apply trim_is_trimmed].
Qed.

(** X3.  In every reachable state every message of every history has a trimmed
    body and an id of the form [msg_<now>_<random>]: [send_message] is the
    only writer of [room.messages]. *)
Theorem stored_messages_are_stamped σ rid room m :
  reachable σ → rooms σ !! rid = Some room → m ∈ r_messages room →
  trimmed (m_message m) ∧ ∃ now rnd, m_id m = js "msg_" ++ now ++ js "_" ++ rnd.
Proof.
  intros Hreach. revert rid room m.
  induction Hreach as [|a σ σ' out Hreach IH Ha]; intros rid room m.
  - simpl. by rewrite lookup_empty.
  - intros Hr Hm.
    destruct (handle_rooms _ _ _ _ _ _ (reachable_Inv _ Hreach) Ha Hr)
      as [(room0 & Hr0 & _ & [Hsame | Hpost]) | (_ & now & rnd & name & _ & _ & -> & _)].
    + rewrite Hsame in Hm. by apply (IH rid room0).
    + destruct Hpost as (sid & sk & data & now & rnd & ts & body & _ & _ & _ & Hmsgs).
      rewrite Hmsgs in Hm. apply elem_of_store_message in Hm as [Hm | ->].
      * by apply (IH rid room0).
      * simpl. split; [apply trim_is_trimmed | eauto].
    + simpl in Hm. by apply elem_of_nil in Hm.
Qed.

(** ** The two registries of connections *)

(** A step that is neither a connection nor a disconnection keeps both
    registries and the user of every socket. *)
Lemma handle_registry a σ σ' out :
  Inv σ → handle a σ = Some (Returns σ' out) →
  (userSockets σ' = userSockets σ ∧ socketUsers σ' = socketUsers σ
   ∧ ∀ sid, s_user <$> sockets σ' !! sid = s_user <$> sockets σ !! sid)
  ∨ (∃ sid uid name email picture,
       a = Connect sid uid name email picture ∧ sockets σ !! sid = None
       ∧ σ' = connection sid uid name email picture σ)
  ∨ (∃ sid sk, a = Disconnect sid ∧ sockets σ !! sid = Some sk
       ∧ userSockets σ' = delete (u_id (s_user sk)) (userSockets σ)
       ∧ socketUsers σ' = delete sid (socketUsers σ)
       ∧ sockets σ' = delete sid (sockets σ)).
Proof.
  intros HI. destruct a as [c uid name email picture | now rnd name | c roomId | c roomId
                            | c data now rnd ts | c data | c ].
  - simpl. case_bool_decide as Hg; [| done]. destruct Hg as [Hfresh _]. intros [= <- <-].
    right. left. exists c, uid, name, email, picture. done.
  - simpl. case_bool_decide; [| done]. intros [= <- <-]. left.
    unfold post_rooms. by case_bool_decide.
  - destruct (sockets σ !! c) as [sk|] eqn:Hsk; [| simpl; by rewrite Hsk].
    rewrite (handle_join _ _ _ _ Hsk). intros [= <- <-]. left.
    destruct (rooms_get roomId σ) as [[r room]|] eqn:Hget.
    2:{ by rewrite (join_room_not_found _ _ _ _ Hget). }
    destruct roomId; simpl in Hget; try done.
    destruct (rooms σ !! s) as [room0|] eqn:Hroom; simplify_eq/=.
    pose proof (join_room_state σ c sk r room HI Hsk Hroom) as (Hss & _ & Hus & Hsu & _).
    simpl in Hss, Hus, Hsu. split; [done |]. split; [done |].
    intros sid. rewrite Hss, lookup_insert. case_decide; [subst; by rewrite Hsk | done].
  - simpl. destruct (sockets σ !! c) as [sk|]; [| done]. simpl. intros [= <- <-]. by left.
  - simpl. destruct (sockets σ !! c) as [sk|] eqn:Hsk; [| done]. simpl. intros [= Hsend].
    apply send_message_returns in Hsend
      as [[-> _] | (r & room & body & Hd & Hroom & _ & -> & _)]; by left.
  - simpl. destruct (sockets σ !! c) as [sk|]; [| done]. simpl. intros [= Ht].
    apply typing_returns in Ht as ->. by left.
  - destruct (sockets σ !! c) as [sk|] eqn:Hsk; [| simpl; by rewrite Hsk].
    rewrite (handle_disconnect _ _ _ Hsk). intros [= <- <-]. right. right.
    exists c, sk. done.
Qed.

Lemma registries_agree σ :
  reachable σ →
  (∀ sid, socketUsers σ !! sid = s_user <$> sockets σ !! sid)
  ∧ (∀ uid sid, userSockets σ !! uid = Some sid →
       ∃ sk, sockets σ !! sid = Some sk ∧ u_id (s_user sk) = uid).
Proof.
  induction 1 as [|a σ σ' out Hreach [IHs IHu] Ha].
  - split; intros *; simpl; by rewrite ?lookup_empty.
  - destruct (handle_registry _ _ _ _ (reachable_Inv _ Hreach) Ha)
      as [(Hus & Hsu & Hsk) | [(c & uid & name & email & picture & -> & Hfresh & ->)
         | (c & sk & -> & Hc & Hus & Hsu & Hss)]].
    + split.
      * intros sid. by rewrite Hsu, Hsk.
      * intros uid sid. rewrite Hus. intros Hu.
        destruct (IHu _ _ Hu) as (sk & Hs & Hid).
        pose proof (Hsk sid) as Heq. rewrite Hs in Heq.
        destruct (sockets σ' !! sid) as [sk'|]; [| done]. injection Heq as Heq.
        exists sk'. split; [done | congruence].
    + split; simpl.
      * intros sid. rewrite !lookup_insert. case_decide; [done | apply IHs].
      * intros uid' sid. rewrite !lookup_insert. case_decide as Hu.
        -- intros [= <-]. rewrite decide_True by done. subst. eauto.
        -- intros Hold. destruct (IHu _ _ Hold) as (sk & Hs & Hid).
           rewrite decide_False by congruence. eauto.
    + split.
      * intros sid. rewrite Hsu, Hss, !lookup_delete. case_decide; [done | apply IHs].
      * intros uid sid. rewrite Hus, Hss. intros Hu.
        apply lookup_delete_Some in Hu as [Hne Hu].
        destruct (IHu _ _ Hu) as (sk' & Hs & Hid).
        exists sk'. split; [| done]. rewrite lookup_delete_ne; [done |].
        intros ->. congruence.
Qed.

(** X4.  In every reachable state [socketUsers] has exactly the connected
    sockets as keys, and maps each one to its [socket.user]. *)
Theorem socketUsers_mirrors_sockets σ sid :
  reachable σ → socketUsers σ !! sid = s_user <$> sockets σ !! sid.
Proof. intros Hreach. by apply registries_agree. Qed.

(** X5.  In every reachable state an entry [uid -> sid] of [userSockets] names
    a connected socket whose user has the id [uid]. *)
Theorem userSockets_entries_are_live σ uid sid :
  reachable σ → userSockets σ !! uid = Some sid →
  ∃ sk, sockets σ !! sid = Some sk ∧ u_id (s_user sk) = uid.
Proof. intros Hreach. by apply registries_agree. Qed.

(** X6.  [userSockets] is keyed by the user id and holds one socket: when a user
    has two connections and one of them closes, the listener of
    [disconnect] deletes the entry of the user although the other
    connection is still open. *)
Theorem disconnect_forgets_the_other_tab σ s1 s2 sk1 sk2 :
  sockets σ !! s1 = Some sk1 → sockets σ !! s2 = Some sk2 → s1 ≠ s2 →
  u_id (s_user sk1) = u_id (s_user sk2) →
  ∃ σ', handle (Disconnect s1) σ = Some (Returns σ' [])
    ∧ sockets σ' !! s2 = Some sk2
    ∧ userSockets σ' !! u_id (s_user sk2) = None.
Proof.
  intros H1 H2 Hne Hid. eexists. split; [by apply handle_disconnect |]. simpl.
  split; [by rewrite lookup_delete_ne | by rewrite Hid, lookup_delete_eq].
Qed.

(** X7.  A new connection is in no chat room: after the [connection] handler the
    socket is only in the room of its own id, is a member of no room, and
    its fresh user object is in no [room.users], so that every
    [send_message] before a [join_room] is refused. *)
Theorem new_connection_is_in_no_room σ σ' out sid uid name email picture :
  reachable σ →
  handle (Connect sid uid name email picture) σ = Some (Returns σ' out) →
  chat_rooms sid σ' = []
  ∧ (∀ rid, connected_member sid rid σ' = false)
  ∧ (∀ roomId, in_targeted_room roomId (mkUser (next_ref σ) uid name email picture) σ' = false).
Proof.
  intros Hreach. pose proof (reachable_Inv _ Hreach) as HI. simpl.
  case_bool_decide as Hg; [| done]. intros [= <- <-].
  assert (∀ rid, JsSet.has (mkUser (next_ref σ) uid name email picture) (users_of rid σ)
                 = false) as Hno.
  { intros rid. apply not_true_is_false. intros Hhas.
    apply has_true in Hhas as (v & Hv & Href). simpl in Href. unfold users_of in Hv.
    destruct (rooms σ !! rid) as [room|] eqn:Hroom; simpl in Hv; [| by apply elem_of_nil in Hv].
    pose proof (inv_users_ref σ HI _ _ _ Hroom Hv). lia. }
  split; [| split].
  - unfold chat_rooms, SocketIO.socket_rooms. simpl. rewrite lookup_insert_eq. simpl.
    by rewrite filter_cons_False, filter_nil by naive_solver.
  - intros rid. unfold connected_member, is_member. simpl. rewrite lookup_insert_eq.
    apply (Hno rid).
  - intros roomId. unfold in_targeted_room. destruct roomId; try done. simpl.
    destruct (rooms σ !! s) as [room|] eqn:Hroom; [| done]. simpl.
    specialize (Hno s). unfold users_of in Hno. by rewrite Hroom in Hno.
Qed.

(** ** Posting, once more *)

Lemma step_post σ rid p sk room :
  sockets σ !! p_sid p = Some sk → rooms σ !! rid = Some room →
  JsSet.has (s_user sk) (r_users room) = true →
  step_state (post_action rid p) σ
  = posted rid room (stamp (s_user sk) (p_body p) (p_now p) (p_rnd p) (p_ts p)) σ.
Proof.
  intros Hsk Hroom Hmem. unfold step_state.
  by rewrite (handle_post σ rid p sk room Hsk Hroom Hmem).
Qed.

(** X8.  An accepted post appends its message to the history of its room; when
    the history already has 100 messages (or more) the oldest one is
    dropped, and otherwise nothing is. *)
Theorem post_appends_or_evicts_oldest σ rid p sk room :
  reachable σ → sockets σ !! p_sid p = Some sk → rooms σ !! rid = Some room →
  JsSet.has (s_user sk) (r_users room) = true →
  messages_of rid (step_state (post_action rid p) σ)
  = (if bool_decide (length (r_messages room) < 100) then r_messages room
     else drop 1 (r_messages room))
    ++ [stamp (s_user sk) (p_body p) (p_now p) (p_rnd p) (p_ts p)].
Proof.
  intros Hreach Hsk Hroom Hmem.
  pose proof (inv_history σ (reachable_Inv _ Hreach) _ _ Hroom) as Hlen.
  rewrite (step_post _ _ _ _ _ Hsk Hroom Hmem), posted_messages.
  unfold store_message, slice_last. rewrite length_app. simpl.
  destruct (decide (length (r_messages room) < 100)) as [Hlt | Hge].
  - rewrite (bool_decide_eq_true_2 (length (r_messages room) < 100)) by done.
    by rewrite bool_decide_eq_false_2 by lia.
  - rewrite (bool_decide_eq_false_2 (length (r_messages room) < 100)) by done.
    rewrite bool_decide_eq_true_2 by lia.
    replace (length (r_messages room) + 1 - 100) with 1 by lia.
    by rewrite drop_app_le by lia.
Qed.

Lemma destructure_prop data roomId message :
  destructure data = Some (roomId, message) → roomId = prop (js "roomId") data.
Proof. destruct data; simpl; by intros [= <- <-]. Qed.

(** X9.  Frame of [send_message]: whatever the payload, a [send_message] that
    returns leaves the sockets, both registries, the users and the name of
    every room as they were, and changes no room other than the targeted
    one. *)
Theorem send_message_frame σ σ' out sid data now rnd ts :
  handle (SendMessage sid data now rnd ts) σ = Some (Returns σ' out) →
  sockets σ' = sockets σ ∧ userSockets σ' = userSockets σ
  ∧ socketUsers σ' = socketUsers σ
  ∧ (∀ r, users_of r σ' = users_of r σ)
  ∧ (∀ r, r_name <$> rooms σ' !! r = r_name <$> rooms σ !! r)
  ∧ (∀ r, prop (js "roomId") data ≠ JStr r → rooms σ' !! r = rooms σ !! r).
Proof.
  simpl. destruct (sockets σ !! sid) as [sk|] eqn:Hsk; [| done]. simpl. intros [= Hsend].
  apply send_message_returns in Hsend
    as [[-> _] | (rid & room & body & Hd & Hroom & _ & -> & _)]; [done |].
  split; [done |]. split; [done |]. split; [done |]. split; [| split].
  - intros r. by apply posted_users.
  - intros r. simpl. rewrite lookup_insert. case_decide; [subst; by rewrite Hroom | done].
  - intros r Hr. simpl. rewrite lookup_insert_ne; [done |]. intros ->.
    apply destructure_prop in Hd. congruence.
Qed.

(** ** Joining, once more *)

(** X10.  Frame of [join_room]: a [join_room] changes no history and no room
    name, no other socket, neither registry, and adds to the user sets
    nothing but the user object of the joining socket. *)
Theorem join_room_frame σ σ' out sid roomId :
  reachable σ → handle (JoinRoom sid roomId) σ = Some (Returns σ' out) →
  (∀ r, messages_of r σ' = messages_of r σ)
  ∧ (∀ r, r_name <$> rooms σ' !! r = r_name <$> rooms σ !! r)
  ∧ (∀ c, c ≠ sid → sockets σ' !! c = sockets σ !! c)
  ∧ (∀ r v, v ∈ users_of r σ' → v ∈ users_of r σ ∨ Some v = s_user <$> sockets σ !! sid)
  ∧ userSockets σ' = userSockets σ ∧ socketUsers σ' = socketUsers σ.
Proof.
  intros Hreach. pose proof (reachable_Inv _ Hreach) as HI.
  destruct (sockets σ !! sid) as [sk|] eqn:Hsk; [| simpl; by rewrite Hsk].
  rewrite (handle_join _ _ _ _ Hsk). intros [= <- <-].
  destruct (rooms_get roomId σ) as [[rid room]|] eqn:Hget.
  2:{ rewrite (join_room_not_found _ _ _ _ Hget). simpl.
      split; [done |]. split; [done |]. split; [done |]. split; [auto | done]. }
  destruct roomId; simpl in Hget; try done.
  destruct (rooms σ !! s) as [room0|] eqn:Hroom; simplify_eq/=.
  pose proof (join_room_state σ sid sk rid room HI Hsk Hroom) as (Hss & Hrs & Hus & Hsu & _).
  simpl in Hss, Hrs, Hus, Hsu.
  split; [| split; [| split; [| split; [| done]]]].
  - intros r. unfold messages_of. rewrite Hrs. by destruct (rooms σ !! r).
  - intros r. rewrite Hrs. by destruct (rooms σ !! r).
  - intros c Hc. by rewrite Hss, lookup_insert_ne.
  - intros r v. unfold users_of. rewrite Hrs.
    destruct (rooms σ !! r) as [room'|]; simpl; [| by left].
    case_bool_decide.
    + rewrite elem_of_app, list_elem_of_singleton.
      intros [Hv | ->]; [left; by eapply elem_of_delete | by right].
    + intros Hv. left. by eapply elem_of_delete.
Qed.

(** X11.  Moving: when a socket that is in room [r0] joins another existing room
    [rid], every other connection of [r0] receives exactly one [user_left]
    (with the users of [r0] without the mover), every other connection of
    [rid] exactly one [user_joined] (with the mover at the end), and every
    other connection of the server nothing. *)
Theorem move_notifies_both_rooms σ sid sk r0 rid room c :
  reachable σ → sockets σ !! sid = Some sk → s_rooms sk = [sid; r0] →
  rooms σ !! rid = Some room → r0 ≠ rid → c ≠ sid →
  received c (step_out (JoinRoom sid (JStr rid)) σ)
  = if connected_member c r0 σ
    then [EvUserLeft (s_user sk) (JsSet.delete (s_user sk) (users_of r0 σ))]
    else if connected_member c rid σ
         then [EvUserJoined (s_user sk) (r_users room ++ [s_user sk])]
         else [].
Proof.
  intros Hreach Hsk Hrs Hroom Hne Hc. pose proof (reachable_Inv _ Hreach) as HI.
  unfold step_out. rewrite (handle_join _ _ _ _ Hsk).
  rewrite (join_room_received σ sid sk rid room c HI Hsk Hroom).
  rewrite bool_decide_eq_false_2 by done.
  assert (r0 ≠ sid ∧ is_Some (rooms σ !! r0)) as [Hr0 Hex].
  { destruct (inv_rooms σ HI _ _ Hsk) as [Heq | (r & Heq & Hex)]; rewrite Hrs in Heq; [done |].
    injection Heq as <-. split; [| done]. intros ->. destruct Hex as [? Hex].
    by rewrite (inv_ids σ HI _ _ Hsk) in Hex. }
  assert (JsSet.delete (s_user sk) (r_users room) = r_users room) as ->.
  { apply delete_absent, not_true_is_false.
    rewrite (inv_member σ HI _ _ _ _ Hsk Hroom), Hrs, !elem_of_cons, elem_of_nil.
    intros [-> | [-> | []]]; [| done]. by rewrite (inv_ids σ HI _ _ Hsk) in Hroom. }
  unfold left_notices, chat_rooms. rewrite (socket_rooms_lookup _ _ _ Hsk), Hrs.
  rewrite filter_cons_False by naive_solver. rewrite filter_cons_True by done.
  rewrite filter_nil. simpl. rewrite app_nil_r.
  destruct (connected_member c r0 σ) eqn:Hm0.
  - rewrite bool_decide_eq_true_2 by by apply connected_member_in_room.
    rewrite bool_decide_eq_false_2; [done |].
    rewrite elem_of_in_room. intros (skc & Hskc & Hin).
    apply connected_member_in_room in Hm0; [| done | done].
    apply elem_of_in_room in Hm0 as (skc' & Hskc' & Hin0).
    rewrite Hskc in Hskc'. injection Hskc' as <-.
    destruct (inv_rooms σ HI _ _ Hskc) as [Heq | (r & Heq & _)]; rewrite Heq in Hin, Hin0.
    + apply list_elem_of_singleton in Hin, Hin0. congruence.
    + rewrite !elem_of_cons, elem_of_nil in Hin, Hin0.
      pose proof (inv_ids σ HI _ _ Hskc) as Hcn. destruct Hex as [prev Hex].
      destruct Hin as [Hin | [Hin | []]], Hin0 as [Hin0 | [Hin0 | []]]; congruence.
  - rewrite (bool_decide_eq_false_2 (c ∈ SocketIO.in_room r0 σ)).
    2:{ rewrite connected_member_in_room by done. by rewrite Hm0. }
    simpl. destruct (connected_member c rid σ) eqn:Hm.
    + by rewrite bool_decide_eq_true_2 by (apply connected_member_in_room; eauto).
    + rewrite bool_decide_eq_false_2; [done |].
      rewrite connected_member_in_room by eauto. by rewrite Hm.
Qed.

(** ** Typing *)

(** X12.  [typing] has no room or membership check: sent for an existing room by
    any connected socket, a member or not, it changes no state and reaches
    exactly the connections of that room other than the sender, each with
    one [user_typing] that carries the sender and the flag of the payload. *)
Theorem typing_reaches_the_room σ sid sk data room r :
  reachable σ → sockets σ !! sid = Some sk →
  prop (js "roomId") data = JStr r → rooms σ !! r = Some room →
  ∃ out, handle (Typing sid data) σ = Some (Returns σ out)
    ∧ ∀ c, received c out
           = if bool_decide (c ≠ sid) && connected_member c r σ
             then [EvUserTyping (s_user sk) (prop (js "isTyping") data)] else [].
Proof.
  intros Hreach Hsk Hprop Hroom. pose proof (reachable_Inv _ Hreach) as HI.
  exists (SocketIO.to_emit sid r (EvUserTyping (s_user sk) (prop (js "isTyping") data)) σ).
  split.
  { cbn [handle]. rewrite Hsk. cbn -[js prop SocketIO.to_emit]. unfold typing.
    rewrite Hprop. destruct data; try done. }
  intros c. rewrite received_to_emit.
  destruct (connected_member c r σ) eqn:Hm.
  - destruct (decide (c = sid)) as [-> | Hc].
    + rewrite (bool_decide_eq_false_2 (sid ≠ sid)) by tauto. simpl.
      rewrite bool_decide_eq_false_2; [done |]. tauto.
    + rewrite (bool_decide_eq_true_2 (c ≠ sid)) by done. simpl.
      rewrite bool_decide_eq_true_2; [done |]. split; [done |].
      apply connected_member_in_room; eauto.
  - rewrite andb_false_r. rewrite bool_decide_eq_false_2; [done |].
    intros [_ Hin]. apply connected_member_in_room in Hin; eauto. congruence.
Qed.

(** ** The history over REST and over the socket *)

(** X13.  The history route and the replay agree: in a reachable state
    [GET /api/rooms/:id/messages] answers the same list, of at most 100
    messages, that a socket joining the room receives as
    [message_history], the last event of its join. *)
Theorem rest_history_is_the_replay σ sid sk rid room :
  reachable σ → sockets σ !! sid = Some sk → rooms σ !! rid = Some room →
  ∃ history,
    api_get_messages rid σ = MessageList history
    ∧ length history ≤ 100
    ∧ last (received sid (step_out (JoinRoom sid (JStr rid)) σ))
      = Some (EvMessageHistory rid history).
Proof.
  intros Hreach Hsk Hroom. pose proof (reachable_Inv _ Hreach) as HI.
  exists (r_messages room). split; [| split].
  - unfold api_get_messages. by rewrite Hroom.
  - exact (inv_history σ HI _ _ Hroom).
  - unfold step_out. rewrite (handle_join _ _ _ _ Hsk).
    rewrite (join_room_received σ sid sk rid room sid HI Hsk Hroom).
    by rewrite bool_decide_eq_true_2.
Qed.

(** X14.  Composition of a post and a join: a socket that joins a room right
    after an accepted post receives [room_users] and then
    [message_history]; the history ends with the message just posted and
    the user list ends with the joiner. *)
Theorem replay_ends_with_last_post σ rid p sk room c skc :
  reachable σ → sockets σ !! p_sid p = Some sk → rooms σ !! rid = Some room →
  JsSet.has (s_user sk) (r_users room) = true →
  sockets σ !! c = Some skc →
  ∃ users history,
    received c (step_out (JoinRoom c (JStr rid)) (step_state (post_action rid p) σ))
    = [EvRoomUsers rid users; EvMessageHistory rid history]
    ∧ last history = Some (stamp (s_user sk) (p_body p) (p_now p) (p_rnd p) (p_ts p))
    ∧ last users = Some (s_user skc).
Proof.
  intros Hreach Hsk Hroom Hmem Hc. pose proof (reachable_Inv _ Hreach) as HI.
  rewrite (step_post _ _ _ _ _ Hsk Hroom Hmem).
  set (m := stamp (s_user sk) (p_body p) (p_now p) (p_rnd p) (p_ts p)).
  set (room1 := mkRoom (r_name room) (store_message m (r_messages room)) (r_users room)).
  assert (rooms (posted rid room m σ) !! rid = Some room1) as Hroom1 by apply lookup_insert_eq.
  assert (Inv (posted rid room m σ)) as HI1 by by apply Inv_posted.
  assert (sockets (posted rid room m σ) !! c = Some skc) as Hc1 by done.
  eexists _, _. split.
  - unfold step_out. rewrite (handle_join _ _ _ _ Hc1).
    rewrite (join_room_received _ c skc rid room1 c HI1 Hc1 Hroom1).
    by rewrite bool_decide_eq_true_2.
  - simpl. split; [apply store_message_last | apply last_snoc].
Qed.

(** ** The listing *)

(** X15.  The [userCount] that [GET /api/rooms] reports for a room is never less
    than the number of connections in the Socket.IO room of the same id
    (it can be more: see the user objects that closed sockets leave
    behind). *)
Theorem user_count_covers_the_room σ rid room :
  reachable σ → rooms σ !! rid = Some room →
  length (SocketIO.in_room rid σ) ≤ ri_userCount (room_info rid room).
Proof.
  intros Hreach Hroom. pose proof (reachable_Inv _ Hreach) as HI. simpl.
  rewrite <- (length_fmap (ref_of σ) (SocketIO.in_room rid σ)).
  rewrite <- (length_fmap u_ref (r_users room)).
  apply submseteq_length, NoDup_submseteq.
  - apply NoDup_fmap_2_strong; [| apply NoDup_in_room].
    intros c1 c2 H1 H2. apply elem_of_in_room in H1 as (sk1 & Hs1 & _).
    apply elem_of_in_room in H2 as (sk2 & Hs2 & _).
    unfold ref_of. rewrite Hs1, Hs2. simpl.
    by apply (inv_ref_inj σ HI _ _ _ _ Hs1 Hs2).
  - intros n Hn. apply list_elem_of_fmap in Hn as (c & -> & Hin).
    apply elem_of_in_room in Hin as (sk & Hs & Hin).
    unfold ref_of. rewrite Hs. simpl.
    apply (inv_member σ HI _ _ _ _ Hs Hroom) in Hin.
    by apply bool_decide_eq_true in Hin.
Qed.

(** ** Creating rooms *)

Lemma trimStart_id (s : str) :
  (∀ c, head s = Some c → JsString.is_white_space c = false) → JsString.trimStart s = s.
Proof. destruct s as [|c s]; [done |]. intros H. simpl. by rewrite (H c). Qed.

Lemma trim_trimmed (s : str) : trimmed s → JsString.trim s = s.
Proof.
  intros [Hh Hl]. unfold JsString.trim, JsString.trimEnd.
  rewrite (trimStart_id s Hh). rewrite trimStart_id; [apply reverse_involutive |].
  intros c. rewrite head_reverse. apply Hl.
Qed.

Lemma trim_idempotent (s : str) : JsString.trim (JsString.trim s) = JsString.trim s.
Proof. apply trim_trimmed, trim_is_trimmed. Qed.

(** X16.  [POST /api/rooms] does not see white space around the name: a name and
    its trimmed form get the same answer and the same state. *)
Theorem room_name_padding_is_ignored (s : str) now rnd σ :
  api_post_rooms (JStr s) now rnd σ = api_post_rooms (JStr (JsString.trim s)) now rnd σ.
Proof.
  unfold api_post_rooms, post_rooms. simpl. rewrite trim_idempotent.
  destruct (decide (s = [])) as [-> | Hs].
  { done. }
  rewrite (bool_decide_eq_false_2 (s = [])) by done. simpl.
  destruct (decide (length (JsString.trim s) = 0)) as [Hz | Hnz].
  - rewrite !(bool_decide_eq_true_2 (length (JsString.trim s) = 0)) by done.
    by destruct (bool_decide (JsString.trim s = [])).
  - rewrite !(bool_decide_eq_false_2 (length (JsString.trim s) = 0)) by done.
    rewrite bool_decide_eq_false_2; [done |]. intros Hnil. by rewrite Hnil in Hnz.
Qed.

(** X17.  The answers of [POST /api/rooms].  A created room is answered only for
    a string whose trimmed form is non-empty; the room is stored under the
    new id with the trimmed name, an empty history (also over the history
    route) and no users, and no other room and no socket changes.  A
    failure changes no state; it is 400 for a falsy or blank name and 500
    for a truthy name that is not a string. *)
Theorem api_post_rooms_answers name now rnd σ resp σ' :
  api_post_rooms name now rnd σ = (resp, σ') →
  match resp with
  | RoomCreated id nm =>
      ∃ s, name = JStr s ∧ nm = JsString.trim s ∧ nm ≠ [] ∧ id = room_id now rnd
           ∧ rooms σ' !! id = Some (mkRoom nm [] [])
           ∧ api_get_messages id σ' = MessageList []
           ∧ (∀ r, r ≠ id → rooms σ' !! r = rooms σ !! r)
           ∧ sockets σ' = sockets σ
  | Failed status _ =>
      σ' = σ
      ∧ ((status = 400
          ∧ (truthy name = false ∨ ∃ s, name = JStr s ∧ JsString.trim s = []))
         ∨ (status = 500 ∧ truthy name = true ∧ ∀ s, name ≠ JStr s))
  | MessageList _ => False
  end.
Proof.
  unfold api_post_rooms. destruct (truthy name) eqn:Ht; simpl.
  2:{ intros [= <- <-]. split; [done |]. left. auto. }
  destruct name; try (intros [= <- <-]; split; [done |]; right; done).
  case_bool_decide as Hlen.
  - intros [= <- <-]. split; [done |]. left. split; [done |]. right.
    exists s. split; [done |]. by apply nil_length_inv.
  - intros [= <- <-]. exists s.
    assert (JsString.trim s ≠ []) as Hne by (intros Hnil; by rewrite Hnil in Hlen).
    unfold post_rooms, api_get_messages. rewrite bool_decide_eq_false_2 by done. simpl.
    rewrite lookup_insert_eq.
    repeat split; try done. intros r Hr. by rewrite lookup_insert_ne.
Qed.

(** ** The token middleware *)

Lemma split_on_cons (sep : N) (s : str) : ∃ piece pieces, split_on sep s = piece :: pieces.
Proof.
  induction s as [|c s (piece & pieces & IH)]; simpl; [eauto |].
  destruct (c =? sep)%N; [eauto |]. rewrite IH. eauto.
Qed.

Lemma split_on_no_sep (sep : N) (s : str) : sep ∉ s → split_on sep s = [s].
Proof.
  induction s as [|c s IH]; [done |]. intros Hnin.
  apply not_elem_of_cons in Hnin as [Hne Hnin]. simpl.
  destruct (N.eqb_spec c sep) as [-> | _]; [done |]. by rewrite IH.
Qed.

Lemma split_on_first (sep : N) (piece rest : str) :
  sep ∉ piece → split_on sep (piece ++ sep :: rest) = piece :: split_on sep rest.
Proof.
  induction piece as [|c piece IH]; intros Hnin; simpl.
  - by rewrite N.eqb_refl.
  - apply not_elem_of_cons in Hnin as [Hne Hnin].
    destruct (N.eqb_spec c sep) as [-> | _]; [done |]. by rewrite IH.
Qed.

Lemma first_sep (sep : N) (s : str) :
  sep ∉ s ∨ ∃ piece rest, s = piece ++ sep :: rest ∧ sep ∉ piece.
Proof.
  induction s as [|c s IH]; [left; apply not_elem_of_nil |].
  destruct (decide (c = sep)) as [-> | Hne].
  - right. exists [], s. split; [done | apply not_elem_of_nil].
  - destruct IH as [Hnin | (piece & rest & -> & Hnin)].
    + left. by apply not_elem_of_cons.
    + right. exists (c :: piece), rest. split; [done |]. by apply not_elem_of_cons.
Qed.

(** The second piece of a header with a space in it. *)
Lemma header_token_second (scheme token tail : str) :
  32%N ∉ scheme → 32%N ∉ token → (tail = [] ∨ head tail = Some 32%N) →
  header_token (Some (scheme ++ 32%N :: token ++ tail)) = Some token.
Proof.
  intros Hs Ht Htail. unfold header_token.
  rewrite bool_decide_eq_false_2 by by destruct scheme.
  rewrite split_on_first by done. simpl.
  destruct Htail as [-> | Hhd].
  - by rewrite app_nil_r, split_on_no_sep.
  - destruct tail as [|c tail]; [done |]. injection Hhd as ->.
    by rewrite split_on_first.
Qed.

(** X18.  [authenticateToken] never looks at the scheme of the [authorization]
    header: for a header [<scheme> <token>...] the answer depends on the
    verification of the second space-separated piece only, whatever the
    first piece is. *)
Theorem scheme_is_not_checked {A} (verify : str → option A) (scheme token tail : str) :
  32%N ∉ scheme → 32%N ∉ token → token ≠ [] → (tail = [] ∨ head tail = Some 32%N) →
  authenticateToken verify (Some (scheme ++ 32%N :: token ++ tail))
  = match verify token with
    | Some user => Next user
    | None => Forbidden
    end.
Proof.
  intros Hs Ht Hne Htail. unfold authenticateToken.
  rewrite (header_token_second _ _ _ Hs Ht Htail). by destruct token.
Qed.

(** X19.  [authenticateToken] answers 401 exactly when the header is absent, has
    no space, or has nothing between its first space and the next one (or
    the end); in all other cases the token is verified. *)
Theorem unauthorized_iff_no_token {A} (verify : str → option A) (authHeader : option str) :
  authenticateToken verify authHeader = Unauthorized
  ↔ authHeader = None
    ∨ ∃ h, authHeader = Some h
        ∧ (32%N ∉ h
           ∨ (∃ scheme tail, h = scheme ++ 32%N :: tail ∧ (32%N ∉ scheme)
               ∧ (tail = [] ∨ head tail = Some 32%N))).
Proof.
  destruct authHeader as [h|]; [| split; [by left | done]].
  split.
  - intros Hres. right. exists h. split; [done |].
    destruct (first_sep 32%N h) as [? | (scheme & rest & -> & Hs)]; [by left | right].
    exists scheme, rest. split; [done |]. split; [done |].
    destruct (first_sep 32%N rest) as [Hr | (token & tail & -> & Ht)].
    + left. destruct rest as [|c rest]; [done |]. exfalso.
      unfold authenticateToken in Hres.
      pose proof (header_token_second scheme (c :: rest) [] Hs Hr (or_introl eq_refl)) as Htok.
      rewrite app_nil_r in Htok. rewrite Htok in Hres.
      by destruct (verify (c :: rest)).
    + destruct token as [|c token]; [by right |]. exfalso.
      unfold authenticateToken in Hres.
      rewrite (header_token_second scheme (c :: token) (32%N :: tail) Hs Ht
                 (or_intror eq_refl)) in Hres.
      by destruct (verify (c :: token)).
  - intros [? | (h' & [= <-] & [Hno | (scheme & tail & -> & Hs & Htail)])]; [done | |].
    + unfold authenticateToken, header_token. case_bool_decide; [done |].
      by rewrite split_on_no_sep.
    + unfold authenticateToken.
      pose proof (header_token_second scheme [] tail Hs (not_elem_of_nil _) Htail) as Htok.
      change ([] ++ tail) with tail in Htok. by rewrite Htok.
Qed.

(** ** The client and the server *)

(** X20.  What the client's [sendMessage] emits: only with a room selected, the
    payload carries that room and the draft as typed, the draft is
    cleared, and the server's [send_message] never throws on it and never
    broadcasts an empty body for it, whatever the state and the sender. *)
Theorem client_posts_are_safe st data st' :
  Client.sendMessage st = (Some data, st') →
  ∃ rid, Client.currentRoom st = Some rid ∧ rid ≠ []
    ∧ data = payload rid (Client.newMessage st)
    ∧ Client.newMessage st' = []
    ∧ ∀ sid user now rnd ts σ,
        ∃ σ' out, send_message sid user data now rnd ts σ = Returns σ' out
          ∧ ∀ c m, (c, EvMessage m) ∈ out → m_message m ≠ [].
Proof.
  unfold Client.sendMessage. destruct (Client.currentRoom st) as [rid|]; [| done].
  destruct (Client.connected st); simpl; [| done].
  case_bool_decide as Hrid; simpl; [done |].
  case_bool_decide as Hbody; simpl; [done |]. intros [= <- <-].
  exists rid. split; [done |]. split; [done |]. split; [done |]. split; [done |].
  intros sid user now rnd ts σ.
  destruct (send_message sid user (payload rid (Client.newMessage st)) now rnd ts σ)
    as [|σ' out] eqn:Hsend.
  { exfalso. revert Hsend. unfold send_message. rewrite destructure_payload. simpl.
    destruct (rooms σ !! rid) as [room|]; simpl; [| done].
    by destruct (JsSet.has user (r_users room)). }
  exists σ', out. split; [done |]. intros c m Hin.
  apply send_message_returns in Hsend
    as [[_ [detail ->]] | (r & room & body & Hd & _ & _ & _ & ->)].
  - by apply list_elem_of_singleton in Hin.
  - rewrite destructure_payload in Hd. injection Hd as <- <-.
    apply list_elem_of_fmap in Hin as (c' & [= _ ->] & _). done.
Qed.

(** X21.  Client and server on a join: when the client's [joinRoom] emits and the
    server handles the [join_room] for an existing room, the events the
    socket receives leave the client on that room, showing the history of
    the room and the users the server has for it after the join. *)
Theorem client_shows_the_room_after_join σ sid sk rid room st :
  reachable σ → sockets σ !! sid = Some sk → rooms σ !! rid = Some room →
  Client.connected st = true → Client.currentRoom st ≠ Some rid →
  (Client.joinRoom rid st).1 = Some (JStr rid)
  ∧ let shown := foldl Client.on_event (Client.joinRoom rid st).2
                   (received sid (step_out (JoinRoom sid (JStr rid)) σ)) in
    Client.currentRoom shown = Some rid
    ∧ Client.messages shown = messages_of rid σ
    ∧ Client.onlineUsers shown = users_of rid (step_state (JoinRoom sid (JStr rid)) σ).
Proof.
  intros Hreach Hsk Hroom Hconn Hcur. pose proof (reachable_Inv _ Hreach) as HI.
  unfold Client.joinRoom. rewrite Hconn. rewrite bool_decide_eq_false_2 by congruence.
  simpl. split; [done |].
  unfold step_out, step_state. rewrite (handle_join _ _ _ _ Hsk).
  rewrite (join_room_received σ sid sk rid room sid HI Hsk Hroom).
  rewrite bool_decide_eq_true_2 by done. simpl.
  split; [done |]. split; [by rewrite (messages_of_lookup _ _ _ Hroom) |].
  pose proof (join_room_state σ sid sk rid room HI Hsk Hroom) as (_ & Hrs & _).
  simpl in Hrs. unfold users_of. rewrite Hrs, Hroom. simpl.
  by rewrite bool_decide_eq_true_2.
Qed.

(** X22.  Client and server on a post: a member whose client shows the history of
    the room appends the broadcast message; its list equals the server's
    history while that is below 100, and is one longer (the server dropped
    its oldest message, the client did not) once the history is full. *)
Theorem client_list_is_not_capped σ rid p sk room c st :
  reachable σ → sockets σ !! p_sid p = Some sk → rooms σ !! rid = Some room →
  JsSet.has (s_user sk) (r_users room) = true →
  connected_member c rid σ = true →
  Client.messages st = r_messages room →
  let m := stamp (s_user sk) (p_body p) (p_now p) (p_rnd p) (p_ts p) in
  let shown := foldl Client.on_event st (received c (step_out (post_action rid p) σ)) in
  Client.messages shown = r_messages room ++ [m]
  ∧ (length (r_messages room) < 100 →
     Client.messages shown = messages_of rid (step_state (post_action rid p) σ))
  ∧ (length (r_messages room) = 100 →
     drop 1 (Client.messages shown) = messages_of rid (step_state (post_action rid p) σ)).
Proof.
  intros Hreach Hsk Hroom Hmem Hc Hview m shown. pose proof (reachable_Inv _ Hreach) as HI.
  assert (Client.messages shown = r_messages room ++ [m]) as Hshown.
  { unfold shown, step_out. rewrite (handle_post σ rid p sk room Hsk Hroom Hmem).
    fold m. rewrite (received_post σ rid room m c HI Hroom), Hc. simpl. by rewrite Hview. }
  split; [done |].
  rewrite Hshown, (step_post _ _ _ _ _ Hsk Hroom Hmem), posted_messages. fold m.
  unfold store_message, slice_last. rewrite length_app. simpl. split; intros Hlen.
  - by rewrite bool_decide_eq_false_2 by lia.
  - rewrite bool_decide_eq_true_2 by lia.
    by replace (length (r_messages room) + 1 - 100) with 1 by lia.
Qed.

(** * The tour *)

Section Tours.
Import Demo Tour.

Lemma rooms_are_permanent_witness :
  ∃ room', rooms (ran evening lobby).1 !! general = Some room'
           ∧ r_name room' = r_name (mkRoom (js "general") [] []).
Proof.
  apply (rooms_are_permanent evening lobby (ran evening lobby).1 (ran evening lobby).2
           general (mkRoom (js "general") [] [])).
  - apply final_reachable. vm_compute. reflexivity.
  - vm_compute. reflexivity.
  - vm_compute. reflexivity.
Defined.

Lemma room_names_are_trimmed_witness :
  r_name general_full ≠ [] ∧ trimmed (r_name general_full).
Proof.
  apply (room_names_are_trimmed together general general_full).
  - apply final_reachable. vm_compute. reflexivity.
  - vm_compute. reflexivity.
Defined.

Lemma posted_once_reachable : reachable posted_once.
Proof.
  apply (reachable_step (post_action general hello) alone posted_once
           (step_out (post_action general hello) alone)).
  - apply final_reachable. vm_compute. reflexivity.
  - vm_compute. reflexivity.
Qed.

Lemma stored_messages_are_stamped_witness :
  trimmed (m_message hello_stamped)
  ∧ ∃ now rnd, m_id hello_stamped = js "msg_" ++ now ++ js "_" ++ rnd.
Proof.
  apply (stored_messages_are_stamped posted_once general general_posted hello_stamped).
  - exact posted_once_reachable.
  - vm_compute. reflexivity.
  - simpl. left.
Defined.

Lemma socketUsers_mirrors_sockets_witness :
  socketUsers two_tabs !! alice2 = s_user <$> sockets two_tabs !! alice2.
Proof.
  apply (socketUsers_mirrors_sockets two_tabs alice2).
  apply final_reachable. vm_compute. reflexivity.
Defined.

Lemma userSockets_entries_are_live_witness :
  ∃ sk, sockets two_tabs !! alice2 = Some sk ∧ u_id (s_user sk) = js "u1".
Proof.
  apply (userSockets_entries_are_live two_tabs (js "u1") alice2).
  - apply final_reachable. vm_compute. reflexivity.
  - vm_compute. reflexivity.
Defined.

Lemma disconnect_forgets_the_other_tab_witness :
  ∃ σ', handle (Disconnect alice2) two_tabs = Some (Returns σ' [])
    ∧ sockets σ' !! alice = Some (mkSock user_alice [alice; general])
    ∧ userSockets σ' !! u_id (s_user (mkSock user_alice [alice; general])) = None.
Proof.
  apply (disconnect_forgets_the_other_tab two_tabs alice2 alice
           (mkSock user_alice2 [alice2]) (mkSock user_alice [alice; general])).
  - vm_compute. reflexivity.
  - vm_compute. reflexivity.
  - eapply bool_decide_eq_true_1. vm_compute. reflexivity.
  - reflexivity.
Defined.

Lemma new_connection_is_in_no_room_witness :
  chat_rooms alice2 (step_state (Connect alice2 (js "u1") (js "Alice") (js "a") (js "p")) together) = []
  ∧ (∀ rid, connected_member alice2 rid
              (step_state (Connect alice2 (js "u1") (js "Alice") (js "a") (js "p")) together) = false)
  ∧ (∀ roomId, in_targeted_room roomId
                 (mkUser (next_ref together) (js "u1") (js "Alice") (js "a") (js "p"))
                 (step_state (Connect alice2 (js "u1") (js "Alice") (js "a") (js "p")) together)
               = false).
Proof.
  apply (new_connection_is_in_no_room together _
           (step_out (Connect alice2 (js "u1") (js "Alice") (js "a") (js "p")) together)
           alice2 (js "u1") (js "Alice") (js "a") (js "p")).
  - apply final_reachable. vm_compute. reflexivity.
  - vm_compute. reflexivity.
Defined.

Lemma post_appends_or_evicts_oldest_witness :
  messages_of general (step_state (post_action general hello) alone)
  = (if bool_decide (length (r_messages general_alone) < 100) then r_messages general_alone
     else drop 1 (r_messages general_alone))
    ++ [stamp (s_user (mkSock user_alice [alice; general])) (p_body hello) (p_now hello)
          (p_rnd hello) (p_ts hello)].
Proof.
  apply (post_appends_or_evicts_oldest alone general hello
           (mkSock user_alice [alice; general]) general_alone).
  - apply final_reachable. vm_compute. reflexivity.
  - vm_compute. reflexivity.
  - vm_compute. reflexivity.
  - vm_compute. reflexivity.
Defined.

Lemma send_message_frame_witness :
  let σ' := step_state (post_action general hello) alone in
  sockets σ' = sockets alone ∧ userSockets σ' = userSockets alone
  ∧ socketUsers σ' = socketUsers alone
  ∧ (∀ r, users_of r σ' = users_of r alone)
  ∧ (∀ r, r_name <$> rooms σ' !! r = r_name <$> rooms alone !! r)
  ∧ (∀ r, prop (js "roomId") (payload general (p_body hello)) ≠ JStr r →
          rooms σ' !! r = rooms alone !! r).
Proof.
  apply (send_message_frame alone _ (step_out (post_action general hello) alone) alice
           (payload general (p_body hello)) (p_now hello) (p_rnd hello) (p_ts hello)).
  vm_compute. reflexivity.
Defined.

Lemma join_room_frame_witness :
  let σ' := step_state (JoinRoom bob (JStr lounge)) together in
  (∀ r, messages_of r σ' = messages_of r together)
  ∧ (∀ r, r_name <$> rooms σ' !! r = r_name <$> rooms together !! r)
  ∧ (∀ c, c ≠ bob → sockets σ' !! c = sockets together !! c)
  ∧ (∀ r v, v ∈ users_of r σ' →
            v ∈ users_of r together ∨ Some v = s_user <$> sockets together !! bob)
  ∧ userSockets σ' = userSockets together ∧ socketUsers σ' = socketUsers together.
Proof.
  apply (join_room_frame together _ (step_out (JoinRoom bob (JStr lounge)) together) bob
           (JStr lounge)).
  - apply final_reachable. vm_compute. reflexivity.
  - vm_compute. reflexivity.
Defined.

Lemma move_notifies_both_rooms_witness :
  received alice (step_out (JoinRoom bob (JStr lounge)) together)
  = if connected_member alice general together
    then [EvUserLeft (s_user (mkSock user_bob [bob; general]))
            (JsSet.delete (s_user (mkSock user_bob [bob; general])) (users_of general together))]
    else if connected_member alice lounge together
         then [EvUserJoined (s_user (mkSock user_bob [bob; general]))
                 (r_users (mkRoom (js "lounge") [] []) ++ [s_user (mkSock user_bob [bob; general])])]
         else [].
Proof.
  apply (move_notifies_both_rooms together bob (mkSock user_bob [bob; general]) general lounge
           (mkRoom (js "lounge") [] []) alice).
  - apply final_reachable. vm_compute. reflexivity.
  - vm_compute. reflexivity.
  - reflexivity.
  - vm_compute. reflexivity.
  - eapply bool_decide_eq_true_1. vm_compute. reflexivity.
  - eapply bool_decide_eq_true_1. vm_compute. reflexivity.
Defined.

Lemma typing_reaches_the_room_witness :
  ∃ out, handle (Typing bob typing_in_general) alone = Some (Returns alone out)
    ∧ ∀ c, received c out
           = if bool_decide (c ≠ bob) && connected_member c general alone
             then [EvUserTyping (s_user (mkSock user_bob [bob]))
                     (prop (js "isTyping") typing_in_general)]
             else [].
Proof.
  apply (typing_reaches_the_room alone bob (mkSock user_bob [bob]) typing_in_general
           general_alone general).
  - apply final_reachable. vm_compute. reflexivity.
  - vm_compute. reflexivity.
  - vm_compute. reflexivity.
  - vm_compute. reflexivity.
Defined.

Lemma rest_history_is_the_replay_witness :
  ∃ history,
    api_get_messages general posted_once = MessageList history
    ∧ length history ≤ 100
    ∧ last (received bob (step_out (JoinRoom bob (JStr general)) posted_once))
      = Some (EvMessageHistory general history).
Proof.
  apply (rest_history_is_the_replay posted_once bob (mkSock user_bob [bob]) general
           general_posted).
  - exact posted_once_reachable.
  - vm_compute. reflexivity.
  - vm_compute. reflexivity.
Defined.

Lemma replay_ends_with_last_post_witness :
  ∃ users history,
    received bob (step_out (JoinRoom bob (JStr general))
                    (step_state (post_action general hello) alone))
    = [EvRoomUsers general users; EvMessageHistory general history]
    ∧ last history = Some (stamp (s_user (mkSock user_alice [alice; general])) (p_body hello)
                             (p_now hello) (p_rnd hello) (p_ts hello))
    ∧ last users = Some (s_user (mkSock user_bob [bob])).
Proof.
  apply (replay_ends_with_last_post alone general hello (mkSock user_alice [alice; general])
           general_alone bob (mkSock user_bob [bob])).
  - apply final_reachable. vm_compute. reflexivity.
  - vm_compute. reflexivity.
  - vm_compute. reflexivity.
  - vm_compute. reflexivity.
  - vm_compute. reflexivity.
Defined.

Lemma user_count_covers_the_room_witness :
  length (SocketIO.in_room general together) ≤ ri_userCount (room_info general general_full).
Proof.
  apply (user_count_covers_the_room together general general_full).
  - apply final_reachable. vm_compute. reflexivity.
  - vm_compute. reflexivity.
Defined.

Lemma api_post_rooms_answers_witness :
  ∃ s, JStr (js " dev ") = JStr s ∧ js "dev" = JsString.trim s ∧ js "dev" ≠ []
       ∧ room_id (js "9") (js "z") = room_id (js "9") (js "z")
       ∧ rooms (post_rooms (room_id (js "9") (js "z")) (js " dev ") lobby)
           !! room_id (js "9") (js "z") = Some (mkRoom (js "dev") [] [])
       ∧ api_get_messages (room_id (js "9") (js "z"))
           (post_rooms (room_id (js "9") (js "z")) (js " dev ") lobby) = MessageList []
       ∧ (∀ r, r ≠ room_id (js "9") (js "z") →
               rooms (post_rooms (room_id (js "9") (js "z")) (js " dev ") lobby) !! r
               = rooms lobby !! r)
       ∧ sockets (post_rooms (room_id (js "9") (js "z")) (js " dev ") lobby) = sockets lobby.
Proof.
  apply (api_post_rooms_answers (JStr (js " dev ")) (js "9") (js "z") lobby
           (RoomCreated (room_id (js "9") (js "z")) (js "dev"))
           (post_rooms (room_id (js "9") (js "z")) (js " dev ") lobby)).
  vm_compute. reflexivity.
Defined.

Lemma scheme_is_not_checked_witness :
  authenticateToken check_token (Some (js "Basic" ++ 32%N :: js "abc" ++ []))
  = match check_token (js "abc") with
    | Some user => Next user
    | None => Forbidden
    end.
Proof.
  apply (scheme_is_not_checked check_token (js "Basic") (js "abc") []).
  - eapply bool_decide_eq_true_1. vm_compute. reflexivity.
  - eapply bool_decide_eq_true_1. vm_compute. reflexivity.
  - eapply bool_decide_eq_true_1. vm_compute. reflexivity.
  - left. reflexivity.
Defined.

Lemma client_posts_are_safe_witness :
  ∃ rid, Client.currentRoom drafting = Some rid ∧ rid ≠ []
    ∧ payload general (js " hey ") = payload rid (Client.newMessage drafting)
    ∧ Client.newMessage (Client.mkChatApp true (Some general) [] [] []) = []
    ∧ ∀ sid user now rnd ts σ,
        ∃ σ' out, send_message sid user (payload general (js " hey ")) now rnd ts σ
                  = Returns σ' out
          ∧ ∀ c m, (c, EvMessage m) ∈ out → m_message m ≠ [].
Proof.
  apply (client_posts_are_safe drafting (payload general (js " hey "))
           (Client.mkChatApp true (Some general) [] [] [])).
  vm_compute. reflexivity.
Defined.

Lemma client_shows_the_room_after_join_witness :
  (Client.joinRoom general idle).1 = Some (JStr general)
  ∧ let shown := foldl Client.on_event (Client.joinRoom general idle).2
                   (received bob (step_out (JoinRoom bob (JStr general)) alone)) in
    Client.currentRoom shown = Some general
    ∧ Client.messages shown = messages_of general alone
    ∧ Client.onlineUsers shown
      = users_of general (step_state (JoinRoom bob (JStr general)) alone).
Proof.
  apply (client_shows_the_room_after_join alone bob (mkSock user_bob [bob]) general
           general_alone idle).
  - apply final_reachable. vm_compute. reflexivity.
  - vm_compute. reflexivity.
  - vm_compute. reflexivity.
  - reflexivity.
  - eapply bool_decide_eq_true_1. vm_compute. reflexivity.
Defined.

Lemma client_list_is_not_capped_witness :
  let m := stamp (s_user (mkSock user_alice [alice; general])) (p_body hello) (p_now hello)
             (p_rnd hello) (p_ts hello) in
  let shown := foldl Client.on_event drafting
                 (received alice (step_out (post_action general hello) alone)) in
  Client.messages shown = r_messages general_alone ++ [m]
  ∧ (length (r_messages general_alone) < 100 →
     Client.messages shown = messages_of general (step_state (post_action general hello) alone))
  ∧ (length (r_messages general_alone) = 100 →
     drop 1 (Client.messages shown)
     = messages_of general (step_state (post_action general hello) alone)).
Proof.
  apply (client_list_is_not_capped alone general hello (mkSock user_alice [alice; general])
           general_alone alice drafting).
  - apply final_reachable. vm_compute. reflexivity.
  - vm_compute. reflexivity.
  - vm_compute. reflexivity.
  - vm_compute. reflexivity.
  - vm_compute. reflexivity.
  - reflexivity.
Defined.

End Tours.
